(** * Image search CLI (search.ts): indexing and ranking, verified

    The development follows the two script versions kept in the
    repository, v3.0.1 and v3.4.0.  JavaScript numbers are IEEE 754
    binary64 values, modelled by Rocq's primitive floats; arrays are lists;
    the snapshot file and the console are explicit state, threaded through
    a state-and-exception monad; the directory tree is an input.  The CLIP
    models behind [CLIPSingleton] are represented by what the scripts get
    from them, the two embedding functions, each of which may fail with
    whatever value a [catch] can receive; loading the models is modelled on
    its own and left out of the runs, and of the two [main] functions the
    one of v3.4.0 is modelled. *)

From Stdlib Require Import ZArith List String Ascii Bool Lia Floats.
From Stdlib Require Import Sorted Permutation.
Import ListNotations.

(** ** Binary64 numbers

    A JavaScript [number] is a binary64 value.  [ord] embeds the numbers
    other than NaN into the integers, order-preservingly ([+0] and [-0]
    coincide, as they do for [===], [<] and [>=]). *)
Module Binary64.
Local Open Scope Z_scope.

Definition number : Type := float.

(** A finite non-zero value or an infinity of sign [s]. *)
Definition has_sign (s : bool) (x : spec_float) : Prop :=
  match x with
  | S754_finite s' _ _ => s' = s
  | S754_infinity s' => s' = s
  | _ => False
  end.

Definition ord_sf (x : spec_float) : Z :=
  match x with
  | S754_zero _ => 0
  | S754_nan => 0
  | S754_infinity s => cond_Zopp s ((emax - emin + 2) * 2 ^ prec)
  | S754_finite s m e => cond_Zopp s ((e - emin + 1) * 2 ^ prec + Zpos m)
  end.

Definition ord (x : number) : Z := ord_sf (Prim2SF x).
End Binary64.

(** ** Arrays: [reduce], indexing, [slice] and [sort] *)
Module JsArray.
Local Open Scope float_scope.

Section Reduce.
Context {A B : Type}.
Variable callback : B -> A -> nat -> B.

(** [arr.reduce(callback, initialValue)], the callback receiving the
    accumulator, the element and its index. *)
Fixpoint reduce_from (i : nat) (arr : list A) (acc : B) : B :=
  match arr with
  | [] => acc
  | a :: rest => reduce_from (S i) rest (callback acc a i)
  end.

Definition reduce (arr : list A) (initialValue : B) : B :=
  reduce_from 0 arr initialValue.
End Reduce.

(** [arr[i]] used as an operand: past the end it is [undefined], which
    arithmetic converts to NaN. *)
Definition at_index (arr : list float) (i : nat) : float := nth i arr nan.

(** [arr.slice(start, end)]: a negative bound counts from the end of the
    array, a bound past the end is clamped. *)
Definition slice {A : Type} (arr : list A) (start end_ : Z) : list A :=
  let len := Z.of_nat (List.length arr) in
  let k := if (start <? 0)%Z then Z.max (len + start) 0 else Z.min start len in
  let final := if (end_ <? 0)%Z then Z.max (len + end_) 0 else Z.min end_ len in
  firstn (Z.to_nat (final - k)) (skipn (Z.to_nat k) arr).

Section Sort.
Context {A : Type}.
Variable comparefn : A -> A -> float.

(** [comparefn(x, y) > 0]: [x] is to come after [y].  A NaN result
    counts as [+0], so it never is "after". *)
Definition after (x y : A) : bool := 0 <? comparefn x y.

Fixpoint insert (x : A) (sorted : list A) : list A :=
  match sorted with
  | [] => [x]
  | y :: rest => if after x y then y :: insert x rest else x :: sorted
  end.

(** [arr.sort(comparefn)] is a stable sort: with a consistent
    comparator its result is determined, and it is the one computed
    here by stable insertion.  A comparator that returns NaN for some
    pairs is not consistent, and the order is then the engine's, which
    need not be the one computed here: what is proved of the order
    below assumes that no similarity is NaN.  The examples with a NaN
    are arrays of three elements in which every neighbour compares as
    "not after": there the engine's run detection leaves the array as it
    is, as this insertion does. *)
Definition sort (arr : list A) : list A := fold_right insert [] arr.
End Sort.
End JsArray.

(** ** Strings and paths *)
Module Path.
Local Open Scope string_scope.

Definition lower (c : ascii) : ascii :=
  let n := nat_of_ascii c in
  if (65 <=? n)%nat && (n <=? 90)%nat then ascii_of_nat (n + 32) else c.

(** [s.toLowerCase()], on the ASCII letters an extension is made of. *)
Fixpoint toLowerCase (s : string) : string :=
  match s with
  | EmptyString => EmptyString
  | String c rest => String (lower c) (toLowerCase rest)
  end.

(** The suffix of [s] that starts at its last occurrence of [sep]. *)
Fixpoint from_last (sep : ascii) (s : string) : option string :=
  match s with
  | EmptyString => None
  | String c rest =>
      match from_last sep rest with
      | Some t => Some t
      | None => if Ascii.eqb c sep then Some s else None
      end
  end.

(** [path.extname(name)] of a directory entry's name: from the last dot
    on, unless there is none or it is the first character. *)
Definition extname (name : string) : string :=
  match name with
  | EmptyString => EmptyString
  | String _ rest =>
      match from_last "." rest with
      | Some t => t
      | None => EmptyString
      end
  end.

(** [path.basename(p)]: what follows the last separator. *)
Definition basename (p : string) : string :=
  match from_last "/" p with
  | Some (String _ t) => t
  | _ => p
  end.

(** [path.join(dir, name)] for a normalised [dir] and an entry name. *)
Definition join (dir name : string) : string := dir ++ "/" ++ name.

(** [list.includes(s)] *)
Definition includes (list : list string) (s : string) : bool :=
  existsb (String.eqb s) list.
End Path.

(** ** [parseInt(s, 10)] *)
Module Number.
Local Open Scope Z_scope.

Definition digit (c : ascii) : option Z :=
  let n := nat_of_ascii c in
  if (48 <=? n)%nat && (n <=? 57)%nat then Some (Z.of_nat (n - 48)) else None.

Definition is_space (c : ascii) : bool :=
  let n := nat_of_ascii c in
  (n =? 32)%nat || ((9 <=? n)%nat && (n <=? 13)%nat).

Fixpoint skip_spaces (s : string) : string :=
  match s with
  | String c rest => if is_space c then skip_spaces rest else s
  | EmptyString => s
  end.

(** The value of the longest prefix of digits; [None] when there is no
    digit. *)
Fixpoint digits (s : string) (acc : option Z) : option Z :=
  match s with
  | EmptyString => acc
  | String c rest =>
      match digit c with
      | Some d => digits rest (Some (10 * match acc with Some a => a | None => 0 end + d))
      | None => acc
      end
  end.

(** [parseInt(s, 10)]: leading blanks, a sign, digits, and whatever
    follows ignored; [None] stands for NaN.  (Exact for the numerals a
    double holds exactly.) *)
Definition parseInt (s : string) : option Z :=
  match skip_spaces s with
  | String "-" rest => option_map Z.opp (digits rest None)
  | String "+" rest => digits rest None
  | t => digits t None
  end.
End Number.

(** ** Configuration and data model *)

Definition DB_PATH : string := "./db.json".
Definition IMAGE_EXTENSIONS : list string := [".png"; ".jpg"; ".jpeg"; ".webp"]%string.

(** [0.28], the double nearest to it. *)
Definition SIMILARITY_THRESHOLD : float := 0x1.1eb851eb851ecp-2%float.

Record DbEntry : Type := { filePath : string; embedding : list float }.

(** [{ entry, similarity }], an element of [allMatches]. *)
Record Match : Type := { entry : DbEntry; similarity : float }.

(** ** Cosine similarity (the same function in both versions) *)
Section Cosine.
Local Open Scope float_scope.
Import JsArray.

Definition sumOfSquares (v : list float) : float :=
  reduce (fun sum a _ => sum + a * a) v 0.

Definition magnitude (v : list float) : float := sqrt (sumOfSquares v).

Definition cosineSimilarity (v1 v2 : list float) : float :=
  let dotProduct := reduce (fun sum a i => sum + a * at_index v2 i) v1 0 in
  let magnitude1 := magnitude v1 in
  let magnitude2 := magnitude v2 in
  if (magnitude1 =? 0) || (magnitude2 =? 0) then 0
  else dotProduct / (magnitude1 * magnitude2).
End Cosine.

(** ** The world: snapshot file, directory tree, console, provider *)

(** What [./db.json] holds: the serialisation of a record list (what
    [JSON.stringify] wrote and [JSON.parse] reads back), or text that is
    not JSON. *)
Inductive file : Type :=
  | Json (db : list DbEntry)
  | Garbage (text : string).

(** A directory as [fs.readdir(dir, { withFileTypes: true })] shows it:
    the call fails, or yields entries, each a file or a directory. *)
Inductive dirent : Type :=
  | File (name : string)
  | Dir (name : string) (contents : readdir_result)
with readdir_result : Type :=
  | ReaddirError (message : string)
  | ReaddirOk (entries : list dirent).

Inductive level : Type := LOG | WARN | ERROR.

(** The console lines of the two scripts, with the values they show. *)
Inductive message : Type :=
  | StartingIndexing
  | ProcessingLimitSet (limit : Z)
  | NoImagesFound (rootDir : string)
  | FoundTotalImages (total : nat)
  | ReachedLimit (limit : Z)
  | Processing (count : Z) (total : nat) (filePath : string)
  | SkippingFile (filePath : string) (errorMessage : string)
  | IndexingComplete (entries : nat)
  | ErrorDuringIndexing (errorMessage : string)
  | EnsureDirectoryExists (imagesDir : string)
  | CouldNotReadDirectory (dir : string) (errorMessage : string)
  | Searching (query : string) (topN : option Z)
  | DatabaseNotFound
  | RunIndexFirst
  | DatabaseEmpty
  | BestMatchFound
  | NoSuitableMatch
  | TopMatchesFound (n : nat)
  | ResultHeader (index : nat)
  | FileLine (filePath : string)
  | ScoreLine (similarity : float)
  | NoMeaningfulMatches
  | BestBelowThreshold (baseName : string) (similarity : float)
  | Banner
  | InvalidCommand
  | UsageIndex
  | UsageSearch.

Inductive event : Type :=
  | Console (l : level) (m : message)
  | OpenFile (filePath : string).

Record world : Type := { disk : option file; output : list event }.

(** What a [catch] may receive: an [Error] (or any object with a
    [message]), [null], [undefined], or another value without a
    [message], of which [text] is what [String(e)] gives. *)
Inductive exn : Type :=
  | Error (message : string)
  | Null
  | Undefined
  | Other (text : string).

Inductive outcome (A : Type) : Type :=
  | Return (a : A)
  | Throw (e : exn).
Arguments Return {A} a.
Arguments Throw {A} e.

(** [(e as Error).message], as read inside a template literal: reading a
    property of [null] or [undefined] throws a [TypeError]; a value
    without the property gives [undefined], printed as such. *)
Definition message_of (e : exn) : outcome string :=
  match e with
  | Error message => Return message
  | Null => Throw (Error "Cannot read properties of null (reading 'message')")
  | Undefined =>
      Throw (Error "Cannot read properties of undefined (reading 'message')")
  | Other _ => Return "undefined"%string
  end.

(** [(e as any)?.message ?? String(e)] *)
Definition message_or_string (e : exn) : string :=
  match e with
  | Error message => message
  | Null => "null"
  | Undefined => "undefined"
  | Other text => text
  end.

(** The embedding provider: both calls may fail; for a fixed input they
    always give the same answer. *)
Record Provider : Type := {
  embedImage : string -> outcome (list float);
  embedText : string -> outcome (list float)
}.

(** ** A monad for the scripts' effects: state and exceptions *)
Definition M (A : Type) : Type := world -> outcome A * world.

Definition ret {A : Type} (a : A) : M A := fun w => (Return a, w).

Definition bind {A B : Type} (m : M A) (k : A -> M B) : M B :=
  fun w => match m w with
           | (Return a, w') => k a w'
           | (Throw e, w') => (Throw e, w')
           end.

Definition throw {A : Type} (e : exn) : M A := fun w => (Throw e, w).

Definition try_catch {A : Type} (m : M A) (handler : exn -> M A) : M A :=
  fun w => match m w with
           | (Return a, w') => (Return a, w')
           | (Throw e, w') => handler e w'
           end.

Declare Scope js_scope.
Delimit Scope js_scope with js.
Notation "x <- m ;; k" := (bind m (fun x => k))
  (at level 61, m at next level, right associativity) : js_scope.
Notation "m ;; k" := (bind m (fun _ => k))
  (at level 61, right associativity) : js_scope.

Definition emit (e : event) : M unit :=
  fun w => (Return tt, {| disk := disk w; output := output w ++ [e] |}).

Definition console_log (m : message) : M unit := emit (Console LOG m).
Definition console_warn (m : message) : M unit := emit (Console WARN m).
Definition console_error (m : message) : M unit := emit (Console ERROR m).

(** [exec] of the platform's opener on a file. *)
Definition openFile (filePath : string) : M unit := emit (OpenFile filePath).

(** [fs.readFile(DB_PATH, 'utf-8')] followed by [JSON.parse]: either may
    throw. *)
Definition readFile : M file :=
  fun w => match disk w with
           | Some f => (Return f, w)
           | None => (Throw (Error "ENOENT: no such file or directory"), w)
           end.

Definition JSON_parse (f : file) : M (list DbEntry) :=
  match f with
  | Json db => ret db
  | Garbage _ => throw (Error "SyntaxError: Unexpected token in JSON")
  end.

Definition JSON_stringify (db : list DbEntry) : file := Json db.

(** [fs.writeFile(DB_PATH, data)]: replaces the snapshot in full.  The
    write itself is taken to succeed. *)
Definition writeFile (data : file) : M unit :=
  fun w => (Return tt, {| disk := Some data; output := output w |}).

(** A [limit] is [undefined] or a number; [if (limit)] holds for a number
    other than zero. *)
Definition truthy (limit : option Z) : bool :=
  match limit with
  | Some n => negb (n =? 0)%Z
  | None => false
  end.

Definition limit_reached (limit : option Z) (count : Z) : bool :=
  match limit with
  | Some n => negb (n =? 0)%Z && (n <=? count)%Z
  | None => false
  end.

Definition is_image (name : string) : bool :=
  Path.includes IMAGE_EXTENSIONS (Path.toLowerCase (Path.extname name)).

Definition lift {A : Type} (r : outcome A) : M A := fun w => (r, w).

(** [try { dbFile = await fs.readFile(...); db = JSON.parse(dbFile) }
     catch (error) { two error lines; return }], shared by both versions of
    [search]: [None] stands for the early return. *)
Definition loadDatabase : M (option (list DbEntry)) :=
  try_catch
    (bind readFile (fun dbFile => bind (JSON_parse dbFile) (fun db => ret (Some db))))
    (fun _ => bind (console_error DatabaseNotFound)
                (fun _ => bind (console_error RunIndexFirst) (fun _ => ret None))).

(** The [for (const entry of entries)] loop of [findImageFilesRecursive],
    the same in both versions; [recurse] is the function itself. *)
Definition eachEntry (recurse : string -> readdir_result -> M (list string))
  (dir : string) : list dirent -> list string -> M (list string) :=
  fix each (entries : list dirent) (imageFiles : list string) : M (list string) :=
    match entries with
    | [] => ret imageFiles
    | Dir name contents :: rest =>
        bind (recurse (Path.join dir name) contents)
             (fun found => each rest (imageFiles ++ found))
    | File name :: rest =>
        if is_image name
        then each rest (imageFiles ++ [Path.join dir name])
        else each rest imageFiles
    end.

(** ** Version 3.0.1 *)
Module V301.
Local Open Scope js_scope.

(** The directory read sits inside [try]: a failure is caught in the
    call for that very directory, which then returns what it has. *)
Fixpoint findImageFilesRecursive (dir : string) (listing : readdir_result)
  : M (list string) :=
  match listing with
  | ReaddirError message =>
      console_warn (CouldNotReadDirectory dir message);; ret []
  | ReaddirOk files => eachEntry findImageFilesRecursive dir files []
  end.

Section WithProvider.
Variable provider : Provider.

(** The [for (const filePath of imageFiles)] loop of [indexImages]. *)
Fixpoint processFiles (limit : option Z) (total : nat)
         (imageFiles : list string) (count : Z) (db : list DbEntry)
  : M (list DbEntry) :=
  match imageFiles with
  | [] => ret db
  | filePath :: rest =>
      if limit_reached limit count then
        console_log (ReachedLimit (match limit with Some n => n | None => 0%Z end));;
        ret db
      else
        let count := (count + 1)%Z in
        console_log (Processing count total filePath);;
        match embedImage provider filePath with
        | Return embedding =>
            processFiles limit total rest count
              (db ++ [{| filePath := filePath; embedding := embedding |}])
        | Throw e =>
            let errorMessage := message_or_string e in
            console_warn (SkippingFile filePath errorMessage);;
            processFiles limit total rest count db
        end
  end.

Definition indexImages (rootDir : string) (tree : readdir_result)
           (limit : option Z) : M unit :=
  console_log StartingIndexing;;
  (if truthy limit
   then console_log (ProcessingLimitSet (match limit with Some n => n | None => 0%Z end))
   else ret tt);;
  try_catch
    (imageFiles <- findImageFilesRecursive rootDir tree;;
     if (List.length imageFiles =? 0)%nat then
       console_log (NoImagesFound rootDir)
     else
       console_log (FoundTotalImages (List.length imageFiles));;
       db <- processFiles limit (List.length imageFiles) imageFiles 0%Z [];;
       writeFile (JSON_stringify db);;
       console_log (IndexingComplete (List.length db)))
    (fun error =>
       message <- lift (message_of error);;
       console_error (ErrorDuringIndexing message)).

(** The best-match loop of [search]. *)
Definition bestMatch (queryEmbedding : list float) (db : list DbEntry)
  : option DbEntry * float :=
  fold_left
    (fun (acc : option DbEntry * float) entry =>
       let similarity := cosineSimilarity queryEmbedding (embedding entry) in
       if (snd acc <? similarity)%float then (Some entry, similarity) else acc)
    db (None, neg_infinity).

Definition search (query : string) : M unit :=
  console_log (Searching query None);;
  loaded <- loadDatabase;;
  match loaded with
  | None => ret tt
  | Some db =>
      if (List.length db =? 0)%nat then console_error DatabaseEmpty
      else
        queryEmbedding <- lift (embedText provider query);;
        match bestMatch queryEmbedding db with
        | (Some best, highestSimilarity) =>
            console_log BestMatchFound;;
            console_log (FileLine (filePath best));;
            console_log (ScoreLine highestSimilarity)
        | (None, _) => console_log NoSuitableMatch
        end
  end.
End WithProvider.
End V301.

(** ** Version 3.4.0 *)
Module V340.
Local Open Scope js_scope.

(** No [try] here: a failing [readdir], at any depth, rejects the whole
    call. *)
Fixpoint findImageFilesRecursive (dir : string) (listing : readdir_result)
  : M (list string) :=
  match listing with
  | ReaddirError message => throw (Error message)
  | ReaddirOk entries => eachEntry findImageFilesRecursive dir entries []
  end.

(** Steps 3 to 5 of [search], on the loaded records. *)
Definition score (queryEmbedding : list float) (entry : DbEntry) : Match :=
  {| entry := entry;
     similarity := cosineSimilarity queryEmbedding (embedding entry) |}.

Definition compareMatches (a b : Match) : float :=
  (similarity b - similarity a)%float.

Definition allMatches (queryEmbedding : list float) (db : list DbEntry)
  : list Match :=
  JsArray.sort compareMatches (map (score queryEmbedding) db).

Definition meaningful (m : Match) : bool :=
  (SIMILARITY_THRESHOLD <=? similarity m)%float.

Definition meaningfulMatches (queryEmbedding : list float) (db : list DbEntry)
  : list Match :=
  filter meaningful (allMatches queryEmbedding db).

Definition topMatches (queryEmbedding : list float) (db : list DbEntry)
           (topN : Z) : list Match :=
  JsArray.slice (meaningfulMatches queryEmbedding db) 0 topN.

(** The diagnostic of step 6: shown only when [topMatches] is empty. *)
Definition bestBelowThreshold (queryEmbedding : list float) (db : list DbEntry)
           (topN : Z) : option Match :=
  match topMatches queryEmbedding db topN with
  | _ :: _ => None
  | [] => match allMatches queryEmbedding db with
          | best :: _ => Some best
          | [] => None
          end
  end.

(** [topMatches.forEach((match, index) => ...)] *)
Fixpoint showMatches (index : nat) (matches : list Match) : M unit :=
  match matches with
  | [] => ret tt
  | m :: rest =>
      console_log (ResultHeader (index + 1));;
      console_log (FileLine (filePath (entry m)));;
      console_log (ScoreLine (similarity m));;
      openFile (filePath (entry m));;
      showMatches (S index) rest
  end.

Section WithProvider.
Variable provider : Provider.

Fixpoint processFiles (limit : option Z) (totalFiles : nat)
         (imageFiles : list string) (processedCount : Z) (db : list DbEntry)
  : M (list DbEntry) :=
  match imageFiles with
  | [] => ret db
  | filePath :: rest =>
      if limit_reached limit processedCount then
        console_log (ReachedLimit (match limit with Some n => n | None => 0%Z end));;
        ret db
      else
        let processedCount := (processedCount + 1)%Z in
        console_log (Processing processedCount totalFiles filePath);;
        match embedImage provider filePath with
        | Return embedding =>
            processFiles limit totalFiles rest processedCount
              (db ++ [{| filePath := filePath; embedding := embedding |}])
        | Throw e =>
            message <- lift (message_of e);;
            console_log (SkippingFile filePath message);;
            processFiles limit totalFiles rest processedCount db
        end
  end.

Definition indexImages (imagesDir : string) (tree : readdir_result)
           (limit : option Z) : M unit :=
  console_log StartingIndexing;;
  (if truthy limit
   then console_log (ProcessingLimitSet (match limit with Some n => n | None => 0%Z end))
   else ret tt);;
  try_catch
    (imageFiles <- findImageFilesRecursive imagesDir tree;;
     let totalFiles := List.length imageFiles in
     console_log (FoundTotalImages totalFiles);;
     if (totalFiles =? 0)%nat then ret tt
     else
       db <- processFiles limit totalFiles imageFiles 0%Z [];;
       writeFile (JSON_stringify db);;
       console_log (IndexingComplete (List.length db)))
    (fun error =>
       message <- lift (message_of error);;
       console_error (ErrorDuringIndexing message);;
       console_error (EnsureDirectoryExists imagesDir)).

Definition search (query : string) (topN : Z) : M unit :=
  console_log (Searching query (Some topN));;
  loaded <- loadDatabase;;
  match loaded with
  | None => ret tt
  | Some db =>
      if (List.length db =? 0)%nat then console_error DatabaseEmpty
      else
        queryEmbedding <- lift (embedText provider query);;
        let allMatches := allMatches queryEmbedding db in
        let topMatches := topMatches queryEmbedding db topN in
        if (0 <? List.length topMatches)%nat then
          console_log (TopMatchesFound (List.length topMatches));;
          showMatches 0 topMatches
        else
          console_log NoMeaningfulMatches;;
          match allMatches with
          | best :: _ =>
              console_log (BestBelowThreshold
                             (Path.basename (filePath (entry best)))
                             (similarity best))
          | [] => ret tt
          end
  end.

(** A string that is there and not empty. *)
Definition given (arg : option string) : bool :=
  match arg with
  | Some (String _ _) => true
  | _ => false
  end.

(** [main], on [args = process.argv.slice(2)]; [tree] is what the
    directory named on the command line holds. *)
Definition main (tree : readdir_result) (args : list string) : M unit :=
  console_log Banner;;
  let command := nth_error args 0 in
  let firstArg := nth_error args 1 in
  if match command with Some c => String.eqb c "index" | None => false end
     && given firstArg
  then
    let limitArg :=
      if given (nth_error args 2)
      then Number.parseInt (nth 2 args EmptyString)
      else None in
    indexImages (nth 1 args EmptyString) tree limitArg
  else if match command with Some c => String.eqb c "search" | None => false end
          && given firstArg
  then
    let lastArg := last args EmptyString in
    let queryArgs := skipn 1 args in
    match Number.parseInt lastArg with
    | Some parsedLastArg =>
        if (1 <? List.length queryArgs)%nat
        then search (String.concat " " (removelast queryArgs)) parsedLastArg
        else search (String.concat " " queryArgs) 4
    | None => search (String.concat " " queryArgs) 4
    end
  else
    console_log InvalidCommand;;
    console_log UsageIndex;;
    console_log UsageSearch.
End WithProvider.
End V340.

(** ** The ranking properties, as predicates on the model *)

(** A number in the proper sense: not NaN. *)
Definition numeric (x : float) : Prop := is_nan x = false.

(** Every record of the store gets a similarity that is a number. *)
Definition numeric_scores (queryEmbedding : list float) (db : list DbEntry) : Prop :=
Forall (fun e => numeric (cosineSimilarity queryEmbedding (embedding e))) db.

Definition score_numeric (m : Match) : Prop := numeric (similarity m).

(** The integer a score is ordered by. *)
Definition score_key (m : Match) : Z := Binary64.ord (similarity m).

(** Descending order of score: no element scores below a later one. *)
Definition descending (ms : list Match) : Prop :=
StronglySorted (fun a b => (similarity b <=? similarity a)%float = true) ms.

(** The records whose similarity is at least the threshold, in store order. *)
Definition qualifying (queryEmbedding : list float) (db : list DbEntry) : list Match :=
filter V340.meaningful (map (V340.score queryEmbedding) db).

(** [result] is a selection of [topN] qualifying records, [rest] being the
    qualifying records it leaves out: only the cap makes it leave any out. *)
Definition selection_spec (queryEmbedding : list float) (db : list DbEntry)
  (topN : Z) (result rest : list Match) : Prop :=
Forall (fun m => V340.meaningful m = true) result
/\ Permutation (result ++ rest) (qualifying queryEmbedding db)
/\ List.length result
   = Nat.min (Z.to_nat topN) (List.length (qualifying queryEmbedding db)).

(** [result] is the ranking of the store truncated to [topN]: a selection
    that, followed by the records it leaves out, is in descending order. *)
Definition ranking_spec (queryEmbedding : list float) (db : list DbEntry)
  (topN : Z) (result : list Match) : Prop :=
exists rest : list Match,
  selection_spec queryEmbedding db topN result rest
  /\ descending (result ++ rest).

Definition same_score (s : float) (m : Match) : bool := (similarity m =? s)%float.

(** [ranked] is the stable descending sort of the scored store. *)
Definition stable_sort_spec (queryEmbedding : list float) (db : list DbEntry)
  (ranked : list Match) : Prop :=
Permutation ranked (map (V340.score queryEmbedding) db)
/\ descending ranked
/\ forall s : float,
     filter (same_score s) ranked
     = filter (same_score s) (map (V340.score queryEmbedding) db).

(** [best] scores highest among [ms]. *)
Definition highest_scoring (best : Match) (ms : list Match) : Prop :=
In best ms /\ Forall (fun m => (similarity m <=? similarity best)%float = true) ms.

(** ** The indexing properties, as functions and predicates on the model *)

(** The files an indexing loop gets to, starting with [count] files behind
    it: all of them or, with a cap, those before the cap stops the loop. *)
Fixpoint attempted (limit : option Z) (count : Z) (imageFiles : list string)
  : list string :=
  match imageFiles with
  | [] => []
  | filePath :: rest =>
      if limit_reached limit count then []
      else filePath :: attempted limit (count + 1) rest
  end.

(** The provider succeeds on a file. *)
Definition succeeds (provider : Provider) (filePath : string) : bool :=
  match embedImage provider filePath with
  | Return _ => true
  | Throw _ => false
  end.

(** The records of the files the provider succeeds on, in order. *)
Definition embedded (provider : Provider) (files : list string) : list DbEntry :=
  flat_map (fun filePath =>
              match embedImage provider filePath with
              | Return embedding =>
                  [{| filePath := filePath; embedding := embedding |}]
              | Throw _ => []
              end) files.

(** An event that is no [console.error] line. *)
Definition quiet (e : event) : Prop :=
  match e with
  | Console ERROR _ => False
  | _ => True
  end.

(** The [TypeError] that ends the v3.4.0 loop over [files]: the one its
    [catch] raises on the first file the provider rejects with [null] or
    [undefined]; [None] when there is no such file. *)
Fixpoint handler_failure (provider : Provider) (files : list string)
  : option exn :=
  match files with
  | [] => None
  | filePath :: rest =>
      match embedImage provider filePath with
      | Throw e =>
          match message_of e with
          | Throw typeError => Some typeError
          | Return _ => handler_failure provider rest
          end
      | Return _ => handler_failure provider rest
      end
  end.

(** Every failing file among [files] has its "Skipping file" line in
    [events], at level [l] and with the message [text] reads off what was
    thrown. *)
Definition skips_reported (provider : Provider) (l : level)
  (text : exn -> outcome string) (files : list string) (events : list event)
  : Prop :=
forall (filePath : string) (e : exn) (message : string),
  In filePath files -> embedImage provider filePath = Throw e ->
  text e = Return message ->
  In (Console l (SkippingFile filePath message)) events.

(** The message the v3.0.1 loop prints for what was thrown. *)
Definition guarded_message (e : exn) : outcome string :=
  Return (message_or_string e).

(** ** Induction on directory trees *)
Section TreeInduction.
Variable P : readdir_result -> Prop.
Hypothesis on_error : forall message : string, P (ReaddirError message).
Hypothesis on_entries :
  forall entries : list dirent,
    Forall (fun e => match e with File _ => True | Dir _ c => P c end) entries ->
    P (ReaddirOk entries).

Fixpoint tree_ind (t : readdir_result) : P t :=
  match t with
  | ReaddirError message => on_error message
  | ReaddirOk entries =>
      on_entries entries
        ((fix all (es : list dirent)
            : Forall (fun e => match e with File _ => True | Dir _ c => P c end) es :=
            match es with
            | [] => Forall_nil _
            | e :: rest =>
                Forall_cons e
                  (match e as e0
                         return match e0 with File _ => True | Dir _ c => P c end
                   with
                   | File _ => I
                   | Dir _ c => tree_ind c
                   end)
                  (all rest)
            end) entries)
  end.
End TreeInduction.

(** An enumeration that always returns, changes no file and prints no
    error. *)
Definition runs_quietly (m : M (list string)) : Prop :=
exists (files : list string) (events : list event),
  Forall quiet events
  /\ forall w : world,
       m w = (Return files, {| disk := disk w; output := output w ++ events |}).

(** An enumeration without any effect on the world. *)
Definition runs_purely (m : M (list string)) : Prop :=
exists r : outcome (list string), forall w : world, m w = (r, w).

(** What the two versions print before enumerating. *)
Definition preamble (limit : option Z) : list event :=
  Console LOG StartingIndexing
  :: (if truthy limit
      then [Console LOG (ProcessingLimitSet
                           (match limit with Some n => n | None => 0%Z end))]
      else []).

(** What a run may do to the snapshot: leave it as it was, or replace it
    by the records of the files the provider succeeded on among the first
    [k] discovered ones, in discovery order; without a cap, [k] covers
    all of them. *)
Definition written_in_order (provider : Provider) (limit : option Z)
  (found : outcome (list string)) (before after : option file) : Prop :=
after = before
\/ exists (files : list string) (db : list DbEntry) (k : nat),
     found = Return files
     /\ after = Some (Json db)
     /\ map filePath db = filter (succeeds provider) (firstn k files)
     /\ incl (map filePath db) files
     /\ (truthy limit = false -> firstn k files = files).

(** A vector of zeros (of either sign). *)
Definition zeroVector (v : list float) : Prop :=
Forall (fun x => (x =? 0)%float = true) v.

(** ** Inputs used as examples

    A store of three two-dimensional records and a query.  The middle
    record is so long that its dot product with the query overflows:
    its similarity is infinity over infinity, NaN. *)
Definition huge : float := 0x1.1ccf385ebc8ap+1023%float.

Definition example_query : list float := [2; 0]%float.

Definition example_store : list DbEntry :=
[ {| filePath := "a.png"; embedding := [1; 1]%float |};
  {| filePath := "b.png"; embedding := [huge; 0]%float |};
  {| filePath := "c.png"; embedding := [1; 0]%float |} ].

(** The same store without the overflowing record. *)
Definition plain_store : list DbEntry :=
[ {| filePath := "a.png"; embedding := [1; 1]%float |};
  {| filePath := "c.png"; embedding := [1; 0]%float |} ].

(** A store none of whose records reaches the threshold. *)
Definition faint_store : list DbEntry :=
[ {| filePath := "a.png"; embedding := [1; 10]%float |};
  {| filePath := "b.png"; embedding := [huge; 0]%float |};
  {| filePath := "c.png"; embedding := [1; 5]%float |} ].

Definition faint_plain_store : list DbEntry :=
[ {| filePath := "a.png"; embedding := [1; 10]%float |};
  {| filePath := "c.png"; embedding := [1; 5]%float |} ].

Definition example_provider : Provider :=
{| embedImage := fun path =>
     if String.eqb path "photos/broken.jpg"
     then Throw (Error "Unsupported image type")
     else Return [1; 0]%float;
   embedText := fun _ => Return example_query |}.

(** A provider whose failure on the same file is a rejection without a
    reason: what [catch] receives is [undefined]. *)
Definition silent_provider : Provider :=
{| embedImage := fun path =>
     if String.eqb path "photos/broken.jpg"
     then Throw Undefined
     else Return [1; 0]%float;
   embedText := fun _ => Return example_query |}.

(** A directory with one unreadable subdirectory and two images, one of
    which the example provider fails on. *)
Definition example_tree : readdir_result :=
ReaddirOk [ File "cat.PNG";
            Dir "private" (ReaddirError "EACCES: permission denied");
            File "broken.jpg";
            File "notes.txt" ].

(** The same directory without the unreadable subdirectory. *)
Definition readable_tree : readdir_result :=
ReaddirOk [ File "cat.PNG"; File "broken.jpg"; File "notes.txt" ].

(** A directory without images. *)
Definition imageless_tree : readdir_result :=
ReaddirOk [ File "notes.txt"; Dir "empty" (ReaddirOk []) ].

(** The snapshot of an earlier run, and none. *)
Definition old_snapshot : world :=
{| disk := Some (Json plain_store); output := [] |}.

Definition no_snapshot : world := {| disk := None; output := [] |}.

(** ** More of the scripts: dot product, enumeration, opened files

    The dot product as [cosineSimilarity] computes it. *)
Definition dotProduct (v1 v2 : list float) : float :=
  JsArray.reduce (fun sum a i => (sum + a * JsArray.at_index v2 i)%float) v1 0%float.

(** The name of an image file: a non-empty stem followed by one of the
    extensions of [IMAGE_EXTENSIONS], in any mix of upper and lower case. *)
Definition image_name (name : string) : Prop :=
exists stem ext : string,
  name = (stem ++ ext)%string
  /\ stem <> EmptyString
  /\ In (Path.toLowerCase ext) IMAGE_EXTENSIONS.

(** [path] is an image file somewhere below [dir], and every directory on
    the way down to it can be read. *)
Inductive reaches : string -> readdir_result -> string -> Prop :=
| reaches_file (dir : string) (entries : list dirent) (name : string) :
    In (File name) entries -> is_image name = true ->
    reaches dir (ReaddirOk entries) (Path.join dir name)
| reaches_dir (dir : string) (entries : list dirent) (name : string)
    (contents : readdir_result) (path : string) :
    In (Dir name contents) entries ->
    reaches (Path.join dir name) contents path ->
    reaches dir (ReaddirOk entries) path.

(** Every directory of the tree can be read. *)
Fixpoint all_readable (tree : readdir_result) : bool :=
  match tree with
  | ReaddirError _ => false
  | ReaddirOk entries =>
      forallb (fun e => match e with
                        | File _ => true
                        | Dir _ contents => all_readable contents
                        end) entries
  end.

(** The files a run opened, in the order of the calls. *)
Definition opened (events : list event) : list string :=
  flat_map (fun e => match e with
                     | OpenFile filePath => [filePath]
                     | Console _ _ => []
                     end) events.

(** The command lines [main] of v3.4.0 acts on: [index] or [search],
    followed by an argument that is not empty. *)
Definition valid_command (args : list string) : bool :=
  match args with
  | command :: String _ _ :: _ =>
      String.eqb command "index" || String.eqb command "search"
  | _ => false
  end.

(** ** The model loader

    [CLIPSingleton] keeps the tokenizer, the image processor and the two
    models in static fields, [null] until loaded.  Loading goes through
    [from_pretrained], which resolves to an instance or rejects. *)
Module CLIPSingleton.

Inductive component : Type := Tokenizer | Processor | VisionModel | TextModel.

(** The console lines around a load: "Loading ..." and "... loaded." *)
Inductive line : Type :=
  | Loading (c : component)
  | Loaded (c : component).

Section WithHandles.
Context {handle : Type}.

(** The static fields; [None] is [null]. *)
Record statics : Type := {
  tokenizer : option handle;
  processor : option handle;
  visionModel : option handle;
  textModel : option handle
}.

Record state : Type := { fields : statics; console : list line }.

Definition field (c : component) (s : statics) : option handle :=
  match c with
  | Tokenizer => tokenizer s
  | Processor => processor s
  | VisionModel => visionModel s
  | TextModel => textModel s
  end.

Definition assign (c : component) (h : handle) (s : statics) : statics :=
  match c with
  | Tokenizer =>
      {| tokenizer := Some h; processor := processor s;
         visionModel := visionModel s; textModel := textModel s |}
  | Processor =>
      {| tokenizer := tokenizer s; processor := Some h;
         visionModel := visionModel s; textModel := textModel s |}
  | VisionModel =>
      {| tokenizer := tokenizer s; processor := processor s;
         visionModel := Some h; textModel := textModel s |}
  | TextModel =>
      {| tokenizer := tokenizer s; processor := processor s;
         visionModel := visionModel s; textModel := Some h |}
  end.

(** What is not loaded at all. *)
Definition unloaded : statics :=
  {| tokenizer := None; processor := None; visionModel := None; textModel := None |}.

Definition L (A : Type) : Type := state -> outcome A * state.

Definition andThen {A B : Type} (m : L A) (k : A -> L B) : L B :=
  fun st => match m st with
            | (Return a, st') => k a st'
            | (Throw e, st') => (Throw e, st')
            end.

Variable from_pretrained : component -> outcome handle.

(** [if (this.x === null) { console.log('Loading ...');
     this.x = await X.from_pretrained(MODEL_NAME); console.log('... loaded.') }],
    and then the value of [this.x]. *)
Definition ensure (c : component) : L handle :=
  fun st =>
    match field c (fields st) with
    | Some h => (Return h, st)
    | None =>
        match from_pretrained c with
        | Return h =>
            (Return h,
             {| fields := assign c h (fields st);
                console := console st ++ [Loading c; Loaded c] |})
        | Throw e =>
            (Throw e,
             {| fields := fields st; console := console st ++ [Loading c] |})
        end
    end.

(** v3.4.0: one getter for each field. *)
Definition getTokenizer : L handle := ensure Tokenizer.
Definition getProcessor : L handle := ensure Processor.
Definition getVisionModel : L handle := ensure VisionModel.
Definition getTextModel : L handle := ensure TextModel.

(** v3.0.1: the four checks in a row, then an object with the four
    fields as they are now. *)
Definition getInstance : L statics :=
  andThen (ensure Tokenizer) (fun _ =>
  andThen (ensure Processor) (fun _ =>
  andThen (ensure VisionModel) (fun _ =>
  andThen (ensure TextModel) (fun _ =>
  fun st => (Return (fields st), st))))).

(** What the two commands of v3.4.0 load before they start. *)
Definition loadForIndexing : L (handle * handle) :=
  andThen getVisionModel (fun v =>
  andThen getProcessor (fun p => fun st => (Return (v, p), st))).

Definition loadForSearching : L (handle * handle) :=
  andThen getTextModel (fun x =>
  andThen getTokenizer (fun t => fun st => (Return (x, t), st))).
End WithHandles.

Arguments statics : clear implicits.
Arguments state : clear implicits.
End CLIPSingleton.

(** ** Facts about binary64 arithmetic

    The ranking comparator is [(a, b) => b.similarity - a.similarity]: the
    sign of a floating-point difference decides the order.  This module
    proves, from the specification of the primitive operations, that for
    numbers other than NaN this sign agrees with the comparison [<]. *)
Module Ieee.
Import Binary64.
Local Open Scope Z_scope.

Lemma digits2_pos_size (p : positive) : digits2_pos p = Pos.size p.
Proof. induction p; simpl; congruence. Qed.

Lemma digits2_upper (m : positive) : Zpos m < 2 ^ Zpos (digits2_pos m).
Proof.
  rewrite digits2_pos_size.
  pose proof (Pos.size_gt m) as H.
  rewrite <- Pos2Z.inj_pow. lia.
Qed.

Lemma digits2_lower (m : positive) : 2 ^ (Zpos (digits2_pos m) - 1) <= Zpos m.
Proof.
  rewrite digits2_pos_size.
  pose proof (Pos.size_le m) as H.
  assert (Hz : 2 ^ Zpos (Pos.size m) <= 2 * Zpos m).
  { rewrite <- Pos2Z.inj_pow. lia. }
  replace (Zpos (Pos.size m)) with (Z.succ (Zpos (Pos.size m) - 1)) in Hz by lia.
  rewrite Z.pow_succ_r in Hz by lia. lia.
Qed.

Lemma iter_xO (d m : positive) : Zpos (Pos.iter xO m d) = Zpos m * 2 ^ Zpos d.
Proof.
  induction d as [|d IH] using Pos.peano_ind.
  - rewrite Z.pow_1_r. cbn [Pos.iter]. lia.
  - rewrite Pos.iter_succ, Pos2Z.inj_xO, IH, Pos2Z.inj_succ, Z.pow_succ_r by lia.
    ring.
Qed.

(** [shl_align] rescales a mantissa to a smaller exponent, exactly. *)
Lemma shl_align_le (mx : positive) (ex ex' : Z) :
  ex' <= ex ->
  Zpos (fst (shl_align mx ex ex')) = Zpos mx * 2 ^ (ex - ex')
  /\ snd (shl_align mx ex ex') = ex'.
Proof.
  intros Hle. unfold shl_align.
  destruct (ex' - ex) as [|d|d] eqn:E; cbn [fst snd]; try lia.
  - replace (ex - ex') with 0 by lia. rewrite Z.pow_0_r. split; lia.
  - rewrite iter_xO. replace (ex - ex') with (Zpos d) by lia. split; lia.
Qed.

Lemma shl_align_snd_ge (mx : positive) (ex ex' lo : Z) :
  lo <= ex -> lo <= ex' -> lo <= snd (shl_align mx ex ex').
Proof.
  intros H1 H2. unfold shl_align.
  destruct (ex' - ex); simpl; lia.
Qed.

(** One right shift halves the mantissa, rounding towards zero. *)
Lemma shr_1_m (s : shr_record) : shr_m (shr_1 s) = Z.quot2 (shr_m s).
Proof. destruct s as [m r t]; destruct m as [|[p|p|]|[p|p|]]; reflexivity. Qed.

Lemma quot2_nonneg (m : Z) : 0 <= m -> Z.quot2 m = m / 2.
Proof.
  intros H. rewrite Zquot2_quot, Z.quot_div_nonneg by lia. reflexivity.
Qed.

Lemma shr_iter_m (p : positive) : forall s : shr_record,
  0 <= shr_m s ->
  shr_m (iter_pos shr_1 p s) = shr_m s / 2 ^ Zpos p.
Proof.
  induction p as [p IH|p IH|]; intros s Hs; simpl iter_pos.
  - assert (H1 : 0 <= shr_m (shr_1 s)).
    { rewrite shr_1_m, quot2_nonneg by lia. apply Z.div_pos; lia. }
    assert (H2 : 0 <= shr_m (iter_pos shr_1 p (shr_1 s))).
    { rewrite IH by lia. apply Z.div_pos; lia. }
    rewrite (IH _ H2), (IH _ H1), shr_1_m, quot2_nonneg by lia.
    rewrite !Z.div_div by lia.
    f_equal. replace (Zpos p~1) with (1 + Zpos p + Zpos p) by lia.
    rewrite !Z.pow_add_r, Z.pow_1_r by lia. ring.
  - assert (H2 : 0 <= shr_m (iter_pos shr_1 p s)).
    { rewrite IH by lia. apply Z.div_pos; lia. }
    rewrite (IH _ H2), (IH _ Hs), Z.div_div by lia.
    f_equal. replace (Zpos p~0) with (Zpos p + Zpos p) by lia.
    rewrite Z.pow_add_r by lia. ring.
  - rewrite shr_1_m, quot2_nonneg by lia. reflexivity.
Qed.

Lemma shr_record_of_loc_m (m : Z) (l : location) :
  shr_m (shr_record_of_loc m l) = m.
Proof. destruct l as [|[]]; reflexivity. Qed.

(** Rounding a positive mantissa at an exponent not below [emin] never
    loses it: the shifted mantissa stays positive. *)
Lemma shr_fexp_pos (m : positive) (e : Z) (l : location) :
  emin <= e ->
  0 < shr_m (fst (shr_fexp prec emax (Zpos m) e l))
  /\ emin <= snd (shr_fexp prec emax (Zpos m) e l).
Proof.
  intros He. unfold shr_fexp, shr. cbn [Zdigits2].
  destruct (fexp prec emax (Zpos (digits2_pos m) + e) - e) as [|p|p] eqn:E;
    cbn [fst snd]; rewrite ?shr_record_of_loc_m; try (split; lia).
  assert (Hp : Zpos p <= Zpos (digits2_pos m) - 1).
  { revert E He. unfold fexp, SpecFloat.emin, prec, emax. lia. }
  split; [|lia].
  rewrite shr_iter_m by (rewrite shr_record_of_loc_m; lia).
  rewrite shr_record_of_loc_m.
  apply Z.div_str_pos. split; [apply Z.pow_pos_nonneg; lia|].
  pose proof (digits2_lower m) as Hlow.
  assert (2 ^ Zpos p <= 2 ^ (Zpos (digits2_pos m) - 1))
    by (apply Z.pow_le_mono_r; lia).
  lia.
Qed.

Lemma round_nearest_even_pos (m : Z) (l : location) :
  0 < m -> 0 < round_nearest_even m l.
Proof.
  intros H. destruct l as [|[]]; simpl; try lia.
  destruct (Z.even m); lia.
Qed.


Lemma binary_round_aux_sign (s : bool) (m : positive) (e : Z) (l : location) :
  emin <= e -> has_sign s (binary_round_aux prec emax s (Zpos m) e l).
Proof.
  intros He. unfold binary_round_aux.
  destruct (shr_fexp_pos m e l He) as [Hm1 He1].
  destruct (shr_fexp prec emax (Zpos m) e l) as [mrs1 e1]. cbn [fst snd] in *.
  pose proof (round_nearest_even_pos _ (loc_of_shr_record mrs1) Hm1) as Hr.
  destruct (round_nearest_even (shr_m mrs1) (loc_of_shr_record mrs1))
    as [|r|r]; try lia.
  destruct (shr_fexp_pos r e1 loc_Exact He1) as [Hm2 He2].
  destruct (shr_fexp prec emax (Zpos r) e1 loc_Exact) as [mrs2 e2].
  cbn [fst snd] in *.
  destruct (shr_m mrs2) as [|q|q]; try lia.
  destruct (e2 <=? emax - prec); reflexivity.
Qed.

Lemma fexp_ge_emin (d : Z) : emin <= fexp prec emax d.
Proof. unfold fexp. lia. Qed.

Lemma binary_round_sign (s : bool) (m : positive) (e : Z) :
  emin <= e -> has_sign s (binary_round prec emax s m e).
Proof.
  intros He. unfold binary_round.
  pose proof (shl_align_snd_ge m e (fexp prec emax (Zpos (digits2_pos m) + e))
                emin He (fexp_ge_emin _)) as H.
  destruct (shl_align m e (fexp prec emax (Zpos (digits2_pos m) + e))) as [mz ez].
  cbn [snd] in H. now apply binary_round_aux_sign.
Qed.

Lemma ltb_zero_has_sign (s : bool) (x : spec_float) :
  has_sign s x -> SFltb (S754_zero false) x = negb s.
Proof. destruct x as [| | |s' m e]; simpl; try tauto; intros ->; now destruct s. Qed.

Lemma normalize_sign (d e : Z) :
  emin <= e ->
  SFltb (S754_zero false) (binary_normalize prec emax d e false) = (0 <? d).
Proof.
  intros He. destruct d as [|m|m]; simpl binary_normalize.
  - reflexivity.
  - now rewrite (ltb_zero_has_sign false) by now apply binary_round_sign.
  - now rewrite (ltb_zero_has_sign true) by now apply binary_round_sign.
Qed.

(** *** Canonical representations and the order of finite values *)

Lemma canonical_bounds (m : positive) (e : Z) :
  canonical_mantissa prec emax m e = true ->
  emin <= e /\ Zpos (digits2_pos m) <= prec
  /\ (emin < e -> Zpos (digits2_pos m) = prec).
Proof.
  unfold canonical_mantissa, fexp. rewrite Z.eqb_eq. lia.
Qed.

Lemma bounded_canonical (m : positive) (e : Z) :
  bounded prec emax m e = true ->
  canonical_mantissa prec emax m e = true /\ e <= emax - prec.
Proof.
  unfold bounded. rewrite andb_true_iff, Z.leb_le. tauto.
Qed.

Lemma canonical_lt_pow (m : positive) (e : Z) :
  canonical_mantissa prec emax m e = true -> Zpos m < 2 ^ prec.
Proof.
  intros H. destruct (canonical_bounds _ _ H) as (_ & Hd & _).
  pose proof (digits2_upper m).
  assert (2 ^ Zpos (digits2_pos m) <= 2 ^ prec) by (apply Z.pow_le_mono_r; lia).
  lia.
Qed.

(** A canonical value with the larger exponent is the larger value. *)
Lemma canonical_exp_lt (mx : positive) (ex : Z) (my : positive) (ey : Z) :
  canonical_mantissa prec emax mx ex = true ->
  canonical_mantissa prec emax my ey = true ->
  ex < ey -> Zpos mx < Zpos my * 2 ^ (ey - ex).
Proof.
  intros Hx Hy Hlt.
  pose proof (canonical_lt_pow _ _ Hx) as Hmx.
  destruct (canonical_bounds _ _ Hx) as (Hex & _ & _).
  destruct (canonical_bounds _ _ Hy) as (_ & _ & Hdy).
  pose proof (digits2_lower my) as Hmy. rewrite Hdy in Hmy by lia.
  assert (H2 : 2 ^ 1 <= 2 ^ (ey - ex)) by (apply Z.pow_le_mono_r; lia).
  rewrite Z.pow_1_r in H2.
  assert (Hp : 2 ^ prec = 2 ^ (prec - 1) * 2) by reflexivity.
  assert (0 < 2 ^ (prec - 1)) by reflexivity.
  nia.
Qed.

Lemma aligned_compare (mx : positive) (ex : Z) (my : positive) (ey : Z) :
  canonical_mantissa prec emax mx ex = true ->
  canonical_mantissa prec emax my ey = true ->
  (Zpos (fst (shl_align mx ex (Z.min ey ex)))
     ?= Zpos (fst (shl_align my ey (Z.min ey ex))))
  = match ex ?= ey with
    | Eq => (mx ?= my)%positive
    | Lt => Lt
    | Gt => Gt
    end.
Proof.
  intros Hx Hy.
  destruct (shl_align_le mx ex (Z.min ey ex) (Z.le_min_r _ _)) as [-> _].
  destruct (shl_align_le my ey (Z.min ey ex) (Z.le_min_l _ _)) as [-> _].
  destruct (Z.compare_spec ex ey) as [Heq|Hlt|Hgt].
  - subst ey. rewrite Z.min_id, Z.sub_diag, Z.pow_0_r, !Z.mul_1_r. reflexivity.
  - rewrite Z.min_r, Z.sub_diag, Z.pow_0_r, Z.mul_1_r by lia.
    apply Z.compare_lt_iff. now apply canonical_exp_lt.
  - rewrite Z.min_l, Z.sub_diag, Z.pow_0_r, Z.mul_1_r by lia.
    apply Z.compare_gt_iff. now apply canonical_exp_lt.
Qed.

(** The difference of two finite values is positive exactly when the
    subtrahend is the smaller one. *)
Lemma finite_sub_sign (sx : bool) (mx : positive) (ex : Z)
      (sy : bool) (my : positive) (ey : Z) :
  bounded prec emax mx ex = true ->
  bounded prec emax my ey = true ->
  SFltb (S754_zero false)
        (SF64sub (S754_finite sy my ey) (S754_finite sx mx ex))
  = SFltb (S754_finite sx mx ex) (S754_finite sy my ey).
Proof.
  intros Bx By.
  destruct (bounded_canonical _ _ Bx) as [Cx _].
  destruct (bounded_canonical _ _ By) as [Cy _].
  destruct (canonical_bounds _ _ Cx) as (Hex & _ & _).
  destruct (canonical_bounds _ _ Cy) as (Hey & _ & _).
  unfold SF64sub, SFsub. rewrite normalize_sign by lia.
  pose proof (aligned_compare mx ex my ey Cx Cy) as Hc.
  unfold SFltb, SFcompare.
  change (Pos.compare_cont Eq mx my) with (mx ?= my)%positive.
  set (X := Zpos (fst (shl_align mx ex (Z.min ey ex)))) in *.
  set (Y := Zpos (fst (shl_align my ey (Z.min ey ex)))) in *.
  assert (HX : 0 < X) by (unfold X; lia).
  assert (HY : 0 < Y) by (unfold Y; lia).
  destruct (Z.compare_spec X Y) as [E|L|G];
    destruct sx, sy; cbn [cond_Zopp];
    destruct (ex ?= ey); try discriminate;
    try rewrite <- Hc; cbn [CompOpp];
    first [ apply Z.ltb_lt; lia | apply Z.ltb_ge; lia ].
Qed.

Lemma SFsub_sign (x y : spec_float) :
  valid_binary x = true -> valid_binary y = true ->
  x <> S754_nan -> y <> S754_nan ->
  SFltb (S754_zero false) (SF64sub y x) = SFltb x y.
Proof.
  intros Vx Vy Nx Ny.
  destruct x as [sx|sx| |sx mx ex], y as [sy|sy| |sy my ey];
    try congruence;
    try (now apply finite_sub_sign);
    try (destruct sx, sy; reflexivity);
    try (destruct sx; reflexivity);
    try (destruct sy; reflexivity).
Qed.

(** *** An order embedding of the numbers into the integers *)


Lemma ord_finite_bounds (m : positive) (e : Z) :
  bounded prec emax m e = true ->
  0 < (e - emin + 1) * 2 ^ prec + Zpos m < (emax - emin + 2) * 2 ^ prec.
Proof.
  intros B. destruct (bounded_canonical _ _ B) as [C Hle].
  pose proof (canonical_lt_pow _ _ C) as Hm.
  destruct (canonical_bounds _ _ C) as (He & _ & _).
  assert (0 < 2 ^ prec) by reflexivity.
  assert (Hp : prec = 53) by reflexivity.
  nia.
Qed.

Lemma ord_finite_compare (mx : positive) (ex : Z) (my : positive) (ey : Z) :
  bounded prec emax mx ex = true ->
  bounded prec emax my ey = true ->
  match ex ?= ey with
  | Eq => (mx ?= my)%positive
  | Lt => Lt
  | Gt => Gt
  end
  = ((ex - emin + 1) * 2 ^ prec + Zpos mx ?= (ey - emin + 1) * 2 ^ prec + Zpos my).
Proof.
  intros Bx By.
  destruct (bounded_canonical _ _ Bx) as [Cx _].
  destruct (bounded_canonical _ _ By) as [Cy _].
  pose proof (canonical_lt_pow _ _ Cx) as Hmx.
  pose proof (canonical_lt_pow _ _ Cy) as Hmy.
  assert (0 < 2 ^ prec) by reflexivity.
  destruct (Z.compare_spec ex ey) as [E|L|G]; symmetry.
  - subst ey. rewrite Z.add_compare_mono_l. reflexivity.
  - apply Z.compare_lt_iff. nia.
  - apply Z.compare_gt_iff. nia.
Qed.

Lemma SFcompare_ord_finite (sx : bool) (mx : positive) (ex : Z)
      (sy : bool) (my : positive) (ey : Z) :
  bounded prec emax mx ex = true ->
  bounded prec emax my ey = true ->
  SFcompare (S754_finite sx mx ex) (S754_finite sy my ey)
  = Some (ord_sf (S754_finite sx mx ex) ?= ord_sf (S754_finite sy my ey)).
Proof.
  intros Bx By.
  pose proof (ord_finite_bounds _ _ Bx) as Hbx.
  pose proof (ord_finite_bounds _ _ By) as Hby.
  pose proof (ord_finite_compare mx ex my ey Bx By) as Hc.
  unfold SFcompare, ord_sf.
  change (Pos.compare_cont Eq mx my) with (mx ?= my)%positive.
  destruct sx, sy; cbn [cond_Zopp]; f_equal.
  - rewrite Z.compare_opp, (Z.compare_antisym (_ + Zpos mx) (_ + Zpos my)), <- Hc.
    destruct (ex ?= ey); reflexivity.
  - symmetry. apply Z.compare_lt_iff. lia.
  - symmetry. apply Z.compare_gt_iff. lia.
  - rewrite <- Hc. destruct (ex ?= ey); reflexivity.
Qed.

Lemma SFcompare_ord (x y : spec_float) :
  valid_binary x = true -> valid_binary y = true ->
  x <> S754_nan -> y <> S754_nan ->
  SFcompare x y = Some (ord_sf x ?= ord_sf y).
Proof.
  intros Vx Vy Nx Ny.
  assert (Hinf : 0 < (emax - emin + 2) * 2 ^ prec) by reflexivity.
  destruct x as [sx|sx| |sx mx ex], y as [sy|sy| |sy my ey];
    try congruence; cbn [valid_binary] in *;
    try (now apply SFcompare_ord_finite);
    try pose proof (ord_finite_bounds _ _ Vx) as Hbx;
    try pose proof (ord_finite_bounds _ _ Vy) as Hby;
    unfold SFcompare, ord_sf;
    try destruct sx; try destruct sy; cbn [cond_Zopp]; f_equal; symmetry;
    first [ apply Z.compare_eq_iff; lia
          | apply Z.compare_lt_iff; lia
          | apply Z.compare_gt_iff; lia ].
Qed.
End Ieee.

(** ** Order and subtraction on numbers

    The facts of [Ieee], on the primitive type. *)
Module Num.
Import Binary64.
Local Open Scope float_scope.



Lemma not_nan_spec (x : number) : is_nan x = false -> Prim2SF x <> S754_nan.
Proof.
  unfold is_nan. rewrite eqb_spec. intros H E. rewrite E in H. discriminate H.
Qed.

Lemma compare_ord (a b : number) :
  is_nan a = false -> is_nan b = false ->
  SFcompare (Prim2SF a) (Prim2SF b) = Some (ord a ?= ord b)%Z.
Proof.
  intros Ha Hb.
  apply Ieee.SFcompare_ord; auto using Prim2SF_valid, not_nan_spec.
Qed.

Lemma ltb_ord (a b : number) :
  is_nan a = false -> is_nan b = false -> (a <? b) = (ord a <? ord b)%Z.
Proof.
  intros Ha Hb. rewrite ltb_spec. unfold SFltb, Z.ltb.
  rewrite compare_ord by assumption. reflexivity.
Qed.

Lemma leb_ord (a b : number) :
  is_nan a = false -> is_nan b = false -> (a <=? b) = (ord a <=? ord b)%Z.
Proof.
  intros Ha Hb. rewrite leb_spec. unfold SFleb, Z.leb.
  rewrite compare_ord by assumption. now destruct (ord a ?= ord b)%Z.
Qed.

Lemma eqb_ord (a b : number) :
  is_nan a = false -> is_nan b = false -> (a =? b) = (ord a =? ord b)%Z.
Proof.
  intros Ha Hb. rewrite eqb_spec. unfold SFeqb.
  rewrite compare_ord by assumption.
  destruct (Z.compare_spec (ord a) (ord b)) as [E|L|G]; symmetry.
  - now apply Z.eqb_eq.
  - apply Z.eqb_neq. lia.
  - apply Z.eqb_neq. lia.
Qed.

(** The sign of [b - a] tells whether [a < b]. *)
Lemma sub_pos_ltb (a b : number) :
  is_nan a = false -> is_nan b = false -> (0 <? b - a) = (a <? b).
Proof.
  intros Ha Hb. rewrite !ltb_spec, sub_spec.
  change (Prim2SF 0) with (S754_zero false).
  apply Ieee.SFsub_sign; auto using Prim2SF_valid, not_nan_spec.
Qed.

(** Comparisons with NaN are all false. *)
Lemma nan_spec (x : number) : is_nan x = true -> Prim2SF x = S754_nan.
Proof.
  unfold is_nan. rewrite eqb_spec. unfold SFeqb.
  destruct (Prim2SF x) as [s|s| |s m e] eqn:E; auto; intros H; exfalso.
  - now destruct s.
  - now destruct s.
  - cbn in H. rewrite Z.compare_refl, Pos.compare_cont_refl in H.
    now destruct s.
Qed.

Lemma leb_nan_r (a b : number) : is_nan b = true -> (a <=? b) = false.
Proof.
  intros H. rewrite leb_spec, (nan_spec _ H). unfold SFleb, SFcompare.
  now destruct (Prim2SF a).
Qed.

Lemma leb_not_nan_r (a b : number) : (a <=? b) = true -> is_nan b = false.
Proof.
  intros H. destruct (is_nan b) eqn:E; auto.
  rewrite (leb_nan_r a b E) in H. discriminate.
Qed.

Lemma eqb_numeric (a b : number) :
(a =? b) = true -> is_nan a = false /\ is_nan b = false.
Proof.
intros H. rewrite eqb_spec in H. unfold SFeqb in H.
split.
- destruct (is_nan a) eqn:E; auto. rewrite (nan_spec _ E) in H. discriminate H.
- destruct (is_nan b) eqn:E; auto. rewrite (nan_spec _ E) in H.
  destruct (Prim2SF a); discriminate H.
Qed.

(** A difference compared positive has operands that are numbers. *)
Lemma sub_pos_numeric (a b : number) :
(0 <? b - a) = true -> is_nan a = false /\ is_nan b = false.
Proof.
intros H. rewrite ltb_spec, sub_spec in H. unfold SF64sub, SFsub in H.
split.
- destruct (is_nan a) eqn:E; auto. rewrite (nan_spec _ E) in H.
  destruct (Prim2SF b); discriminate H.
- destruct (is_nan b) eqn:E; auto. rewrite (nan_spec _ E) in H. discriminate H.
Qed.

(** The two zeros are the only numbers equal ([===]) to zero. *)
Lemma eqb_zero (x : number) : (x =? 0) = true -> x = 0 \/ x = neg_zero.
Proof.
  intros H. rewrite eqb_spec in H.
  change (Prim2SF 0) with (S754_zero false) in H.
  pose proof (SF2Prim_Prim2SF x) as E.
  destruct (Prim2SF x) as [[]|[]| |[] m e]; cbn in H; try discriminate H.
  - right. symmetry. exact E.
  - left. symmetry. exact E.
Qed.
End Num.

(** ** Lists: permutations, filters and sorted lists *)
Module ListFacts.

Lemma Permutation_filter {A : Type} (f : A -> bool) (l l' : list A) :
  Permutation l l' -> Permutation (filter f l) (filter f l').
Proof.
induction 1 as [|x l l' _ IH|x y l|l l' l'' _ IH1 _ IH2]; simpl.
- constructor.
- destruct (f x); auto.
- destruct (f x), (f y); auto using perm_swap.
- now transitivity (filter f l').
Qed.

Lemma StronglySorted_filter {A : Type} (R : A -> A -> Prop) (f : A -> bool)
  (l : list A) :
  StronglySorted R l -> StronglySorted R (filter f l).
Proof.
induction 1 as [|x l _ IH Hx]; simpl.
- constructor.
- destruct (f x); auto. constructor; auto.
  rewrite Forall_forall in *. intros y Hy.
  apply filter_In in Hy. now apply Hx.
Qed.

Lemma StronglySorted_head {A : Type} (R : A -> A -> Prop) (x : A) (l : list A) :
  StronglySorted R (x :: l) -> Forall (R x) l.
Proof. now inversion 1. Qed.

Lemma StronglySorted_weaken {A : Type} (R R' : A -> A -> Prop) (P : A -> Prop)
  (l : list A) :
  (forall a b, P a -> P b -> R a b -> R' a b) ->
  Forall P l -> StronglySorted R l -> StronglySorted R' l.
Proof.
intros HR HP Hs. induction Hs as [|x l _ IH Hx].
- constructor.
- inversion HP as [|? ? Px Pl]; subst. constructor; auto.
  rewrite Forall_forall in *. intros y Hy. apply HR; auto.
Qed.

Lemma firstn_min_length {A : Type} (n : nat) (l : list A) :
  firstn (Nat.min n (List.length l)) l = firstn n l.
Proof.
destruct (Nat.le_ge_cases n (List.length l)) as [H|H].
- now rewrite Nat.min_l.
- rewrite Nat.min_r by assumption.
  now rewrite firstn_all, firstn_all2.
Qed.

End ListFacts.

(** ** [slice] and [sort] *)
Module ArrayFacts.
Import JsArray ListFacts.

(** With a bound that is not negative, [slice(0, n)] keeps the first [n]. *)
Lemma slice_0_nonneg {A : Type} (l : list A) (n : Z) :
  (0 <= n)%Z -> slice l 0 n = firstn (Z.to_nat n) l.
Proof.
intros Hn. unfold slice.
replace (0 <? 0)%Z with false by reflexivity.
replace (n <? 0)%Z with false by (symmetry; apply Z.ltb_ge; lia).
cbv zeta. rewrite (Z.min_l 0) by lia. rewrite Z.sub_0_r. cbn [Z.to_nat skipn].
rewrite Z2Nat.inj_min, Nat2Z.id. apply firstn_min_length.
Qed.

(** With a negative bound, [slice(0, n)] drops the last [-n] instead. *)
Lemma slice_0_neg {A : Type} (l : list A) (n : Z) :
  (n < 0)%Z -> slice l 0 n = firstn (List.length l - Z.to_nat (- n)) l.
Proof.
intros Hn. unfold slice.
replace (0 <? 0)%Z with false by reflexivity.
replace (n <? 0)%Z with true by (symmetry; apply Z.ltb_lt; lia).
cbv zeta. rewrite (Z.min_l 0) by lia. rewrite Z.sub_0_r. cbn [Z.to_nat skipn].
f_equal. lia.
Qed.

Section Sort.
Context {A : Type}.
Variable comparefn : A -> A -> float.

Lemma insert_perm (x : A) (l : list A) :
  Permutation (insert comparefn x l) (x :: l).
Proof.
induction l as [|y l IH]; simpl.
- reflexivity.
- destruct (after comparefn x y).
  + rewrite IH. apply perm_swap.
  + reflexivity.
Qed.

Lemma sort_perm (l : list A) : Permutation (sort comparefn l) l.
Proof.
induction l as [|x l IH]; simpl.
- constructor.
- rewrite insert_perm. now constructor.
Qed.

(** An array in which no element is "after" its right neighbour is left
    as it is, whatever the comparator says of elements further apart. *)
Lemma sort_fixed (l : list A) :
  Sorted (fun x y => after comparefn x y = false) l -> sort comparefn l = l.
Proof.
induction 1 as [|x l _ IH Hd]; cbn [sort fold_right].
- reflexivity.
- fold (sort comparefn l). rewrite IH.
  destruct Hd as [|y l' Hxy]; cbn [insert]; [reflexivity|now rewrite Hxy].
Qed.

(** Stability: a class [p] of elements that no member is moved behind
    another member of keeps its order. *)
Lemma filter_insert (p : A -> bool) (x : A) (l : list A) :
  (p x = true -> forall y, In y l -> after comparefn x y = true -> p y = false) ->
  filter p (insert comparefn x l) = filter p (x :: l).
Proof.
induction l as [|y l IH]; intros H.
- reflexivity.
- cbn [insert]. destruct (after comparefn x y) eqn:E; [|reflexivity].
  cbn [filter]. rewrite IH by (intros Hx z Hz; apply H; simpl; auto).
  cbn [filter]. destruct (p x) eqn:Px; [|reflexivity].
  now rewrite (H eq_refl y (or_introl eq_refl) E).
Qed.

Lemma filter_sort (p : A -> bool) (l : list A) :
  (forall x y, In x l -> In y l -> p x = true ->
               after comparefn x y = true -> p y = false) ->
  filter p (sort comparefn l) = filter p l.
Proof.
induction l as [|x l IH]; intros H.
- reflexivity.
- cbn [sort fold_right]. fold (sort comparefn l).
  rewrite filter_insert.
  + cbn [filter]. rewrite IH by (intros; apply (H x0 y); simpl; auto).
    reflexivity.
  + intros Px y Hy. apply (H x y); simpl; auto.
    right. eapply Permutation_in; [apply sort_perm|exact Hy].
Qed.

(** Sortedness: where the comparator decides by an integer key, the
    result is sorted by decreasing key. *)
Variable key : A -> Z.
Variable P : A -> Prop.
Hypothesis after_key :
  forall x y, P x -> P y -> after comparefn x y = (key x <? key y)%Z.

Lemma insert_sorted (x : A) (l : list A) :
  P x -> Forall P l ->
  StronglySorted (fun a b => (key b <= key a)%Z) l ->
  StronglySorted (fun a b => (key b <= key a)%Z) (insert comparefn x l).
Proof.
intros Px Pl Hs. induction Hs as [|y l Hs IH Hy]; cbn [insert].
- repeat constructor.
- inversion Pl as [|? ? Py Pl']; subst.
  rewrite (after_key x y Px Py).
  destruct (Z.ltb_spec (key x) (key y)) as [Hlt|Hge].
  + constructor; [now apply IH|].
    eapply Permutation_Forall; [symmetry; apply insert_perm|].
    constructor; [lia|assumption].
  + constructor; [now constructor|].
    constructor; [assumption|].
    rewrite Forall_forall in *. intros z Hz. specialize (Hy z Hz). lia.
Qed.

Lemma sort_sorted (l : list A) :
  Forall P l -> StronglySorted (fun a b => (key b <= key a)%Z) (sort comparefn l).
Proof.
induction 1 as [|x l Px Pl IH]; cbn [sort fold_right].
- constructor.
- apply insert_sorted; auto.
  eapply Permutation_Forall; [symmetry; apply sort_perm|assumption].
Qed.
End Sort.
End ArrayFacts.

(** ** Cosine similarity: the zero-norm guard *)
Module CosineFacts.
Import JsArray.
Local Open Scope float_scope.

Lemma zero_plus_square (a : float) : (a =? 0) = true -> 0 + a * a = 0.
Proof. intros H. destruct (Num.eqb_zero a H) as [-> | ->]; reflexivity. Qed.

Lemma sumOfSquares_from_zero (v : list float) :
  zeroVector v -> forall i, reduce_from (fun sum a _ => sum + a * a) i v 0 = 0.
Proof.
induction 1 as [|a v Ha _ IH]; intros i; cbn [reduce_from].
- reflexivity.
- rewrite (zero_plus_square a Ha). apply IH.
Qed.

Lemma magnitude_zeroVector (v : list float) : zeroVector v -> magnitude v = 0.
Proof.
intros H. unfold magnitude, sumOfSquares, reduce.
now rewrite sumOfSquares_from_zero.
Qed.

(** C9. For every pair of vectors, if the computed Euclidean norm of either
    one is exactly zero, [cosineSimilarity] returns exactly [0] (which is
    not NaN); in particular the similarity of any vector with a vector of
    zeros, on either side, is [0]. *)
Theorem cosineSimilarity_zero_norm :
  (forall v1 v2 : list float,
     (magnitude v1 =? 0) = true \/ (magnitude v2 =? 0) = true ->
     cosineSimilarity v1 v2 = 0 /\ is_nan (cosineSimilarity v1 v2) = false)
  /\ (forall a z : list float,
        zeroVector z -> cosineSimilarity a z = 0 /\ cosineSimilarity z a = 0).
Proof.
assert (G : forall v1 v2 : list float,
          (magnitude v1 =? 0) = true \/ (magnitude v2 =? 0) = true ->
          cosineSimilarity v1 v2 = 0).
{ intros v1 v2 H. unfold cosineSimilarity.
  destruct (magnitude v1 =? 0) eqn:E1; [reflexivity|].
  destruct H as [H|H]; [discriminate H|]. now rewrite H. }
split.
- intros v1 v2 H. rewrite (G v1 v2 H). split; reflexivity.
- intros a z Hz. pose proof (magnitude_zeroVector z Hz) as Hm.
  split; apply G; [right|left]; rewrite Hm; reflexivity.
Qed.

Lemma cosineSimilarity_zero_norm_witness :
  cosineSimilarity [3; 4] [0; neg_zero] = 0
  /\ cosineSimilarity [0; neg_zero] [3; 4] = 0.
Proof.
apply (proj2 cosineSimilarity_zero_norm).
repeat constructor.
Defined.

End CosineFacts.

(** ** Ranking (v3.4.0) *)
Module RankingFacts.
Import JsArray ListFacts ArrayFacts V340.
Local Open Scope float_scope.



Lemma after_key (x y : Match) :
  score_numeric x -> score_numeric y ->
  after compareMatches x y = (score_key x <? score_key y)%Z.
Proof.
intros Hx Hy. unfold after, compareMatches, score_key.
rewrite Num.sub_pos_ltb by assumption. now apply Num.ltb_ord.
Qed.

Lemma after_numeric (x y : Match) :
  after compareMatches x y = true -> score_numeric x /\ score_numeric y.
Proof. unfold after, compareMatches. apply Num.sub_pos_numeric. Qed.

Lemma scored_numeric (q : list float) (db : list DbEntry) :
  numeric_scores q db -> Forall score_numeric (map (score q) db).
Proof.
unfold numeric_scores. rewrite !Forall_forall. intros H m Hm.
apply in_map_iff in Hm. destruct Hm as (e & <- & He). now apply H.
Qed.

Lemma key_order_descending (ms : list Match) :
  Forall score_numeric ms ->
  StronglySorted (fun a b => (score_key b <= score_key a)%Z) ms ->
  descending ms.
Proof.
intros HP. apply (StronglySorted_weaken _ _ score_numeric); [|assumption].
intros a b Ha Hb Hab. unfold score_key in Hab.
rewrite Num.leb_ord by assumption. now apply Z.leb_le.
Qed.

Lemma allMatches_perm (q : list float) (db : list DbEntry) :
  Permutation (allMatches q db) (map (score q) db).
Proof. apply sort_perm. Qed.

Lemma allMatches_descending (q : list float) (db : list DbEntry) :
  numeric_scores q db -> descending (allMatches q db).
Proof.
intros H. pose proof (scored_numeric q db H) as Hn.
apply key_order_descending.
- eapply Permutation_Forall; [symmetry; apply allMatches_perm|assumption].
- apply (sort_sorted compareMatches score_key score_numeric after_key).
  assumption.
Qed.

(** Records with the same score keep their store order, whatever the
    scores are. *)
Lemma allMatches_stable (q : list float) (db : list DbEntry) (s : float) :
  numeric_scores q db ->
  filter (same_score s) (allMatches q db)
  = filter (same_score s) (map (score q) db).
Proof.
intros _.
apply filter_sort. intros x y _ _ Hx Hxy. unfold same_score in *.
destruct (after_numeric x y Hxy) as [Nx Ny].
destruct (Num.eqb_numeric _ _ Hx) as [_ Ns].
rewrite after_key in Hxy by assumption. unfold score_key in Hxy.
rewrite Num.eqb_ord in Hx |- * by assumption.
apply Z.ltb_lt in Hxy. apply Z.eqb_eq in Hx. apply Z.eqb_neq. lia.
Qed.

Lemma meaningfulMatches_perm (q : list float) (db : list DbEntry) :
  Permutation (meaningfulMatches q db) (qualifying q db).
Proof. apply Permutation_filter, allMatches_perm. Qed.

Lemma topMatches_firstn (q : list float) (db : list DbEntry) (topN : Z) :
  (0 <= topN)%Z ->
  topMatches q db topN = firstn (Z.to_nat topN) (meaningfulMatches q db).
Proof. intros H. now apply slice_0_nonneg. Qed.

(** C1, as the code has it.  For every loaded store and query vector, and
    a positive [topN], the returned match list consists of records whose
    similarity is at least the threshold, its length is the minimum of
    [topN] and the number of such records, and with the records it leaves
    out it makes up all of them: none is omitted except by the cap.
    Whenever all similarities are numbers (none is NaN), the list is
    moreover in descending order of score, and so are the records left
    out after it. *)
Theorem topMatches_ranking (q : list float) (db : list DbEntry) (topN : Z) :
  (0 < topN)%Z ->
  exists rest : list Match,
    selection_spec q db topN (topMatches q db topN) rest
    /\ (numeric_scores q db -> descending (topMatches q db topN ++ rest)).
Proof.
intros Hpos. rewrite topMatches_firstn by lia.
exists (skipn (Z.to_nat topN) (meaningfulMatches q db)).
unfold selection_spec. rewrite !firstn_skipn. split; [split; [|split]|].
- rewrite Forall_forall. intros m Hm.
  assert (Hin : In m (meaningfulMatches q db)).
  { rewrite <- (firstn_skipn (Z.to_nat topN)). apply in_or_app. now left. }
  apply filter_In in Hin. tauto.
- apply meaningfulMatches_perm.
- rewrite length_firstn.
  now rewrite (Permutation_length (meaningfulMatches_perm q db)).
- intros Hn. apply StronglySorted_filter. now apply allMatches_descending.
Qed.

Lemma plain_store_numeric : numeric_scores example_query plain_store.
Proof. repeat constructor. Qed.

Lemma topMatches_ranking_witness :
  ranking_spec example_query plain_store 1 (topMatches example_query plain_store 1).
Proof.
destruct (topMatches_ranking example_query plain_store 1 eq_refl)
  as (rest & Hsel & Hdesc).
exists rest. split; [exact Hsel|exact (Hdesc plain_store_numeric)].
Defined.

(** C1 as stated fails on a store with a NaN similarity: of the records
    [a.png] (0.707), [b.png] (NaN) and [c.png] (1), in this order, the
    comparator leaves all three in place, and the first match returned is
    [a.png], although [c.png] scores higher. *)
Lemma topMatches_ranking_counterexample :
  map (fun m => filePath (entry m)) (topMatches example_query example_store 1)
  = ["a.png"%string]
  /\ ~ ranking_spec example_query example_store 1
        (topMatches example_query example_store 1).
Proof.
split; [vm_compute; reflexivity|].
intros (rest & (_ & Hperm & _) & Hdesc).
set (A := score example_query {| filePath := "a.png"; embedding := [1; 1] |}) in *.
set (C := score example_query {| filePath := "c.png"; embedding := [1; 0] |}) in *.
assert (E1 : topMatches example_query example_store 1 = [A]) by (vm_compute; reflexivity).
assert (E2 : qualifying example_query example_store = [A; C]) by (vm_compute; reflexivity).
rewrite E1 in Hperm, Hdesc. rewrite E2 in Hperm. cbn [app] in *.
apply Permutation_cons_inv in Hperm.
apply Permutation_sym, Permutation_length_1_inv in Hperm. subst rest.
apply StronglySorted_head in Hdesc. inversion Hdesc as [|? ? H _]; subst.
vm_compute in H. discriminate H.
Qed.

Lemma same_score_refl (m : Match) :
  score_numeric m -> same_score (similarity m) m = true.
Proof.
intros H. unfold same_score. rewrite Num.eqb_ord by assumption.
apply Z.eqb_refl.
Qed.

(** Two descending lists of numeric scores in which the records of each
    score come in the same order are one and the same list. *)
Lemma descending_stable_unique (l1 : list Match) :
  forall l2 : list Match,
    Forall score_numeric l1 -> Forall score_numeric l2 ->
    descending l1 -> descending l2 ->
    (forall s : float, filter (same_score s) l1 = filter (same_score s) l2) ->
    l1 = l2.
Proof.
induction l1 as [|x t1 IH]; intros l2 N1 N2 D1 D2 F.
- destruct l2 as [|y t2]; [reflexivity|].
  specialize (F (similarity y)). cbn [filter] in F.
  rewrite same_score_refl in F by now inversion N2. discriminate F.
- destruct l2 as [|y t2].
  + specialize (F (similarity x)). cbn [filter] in F.
    rewrite same_score_refl in F by now inversion N1. discriminate F.
  + inversion N1 as [|? ? Nx Nt1]; inversion N2 as [|? ? Ny Nt2]; subst.
    apply StronglySorted_inv in D1, D2.
    destruct D1 as [D1 H1], D2 as [D2 H2].
    assert (Lxy : (score_key x <= score_key y)%Z).
    { assert (I : In x (filter (same_score (similarity x)) (y :: t2))).
      { rewrite <- F. cbn [filter]. rewrite same_score_refl by assumption.
        now left. }
      apply filter_In in I. destruct I as [[<-|I] _]; [lia|].
      rewrite Forall_forall in H2. specialize (H2 x I).
      rewrite Num.leb_ord in H2 by assumption.
      apply Z.leb_le in H2. exact H2. }
    assert (Lyx : (score_key y <= score_key x)%Z).
    { assert (I : In y (filter (same_score (similarity y)) (x :: t1))).
      { rewrite F. cbn [filter]. rewrite same_score_refl by assumption.
        now left. }
      apply filter_In in I. destruct I as [[<-|I] _]; [lia|].
      rewrite Forall_forall in H1. specialize (H1 y I).
      rewrite Num.leb_ord in H1 by assumption.
      apply Z.leb_le in H1. exact H1. }
    assert (Sy : same_score (similarity x) y = true).
    { unfold same_score. rewrite Num.eqb_ord by assumption.
      apply Z.eqb_eq. unfold score_key in *. lia. }
    assert (Exy : x = y).
    { specialize (F (similarity x)). cbn [filter] in F.
      rewrite same_score_refl, Sy in F by assumption. now injection F. }
    subst y. f_equal. apply IH; try assumption.
    intros s. specialize (F s). cbn [filter] in F.
    destruct (same_score s x); [now injection F|exact F].
Qed.

(** With numeric scores, a stable descending sort of the scored store has
    one possible result, the list [allMatches] computes. *)
Lemma stable_sort_unique (q : list float) (db : list DbEntry) (ranked : list Match) :
  numeric_scores q db ->
  stable_sort_spec q db ranked -> ranked = allMatches q db.
Proof.
intros Hn (P & D & F).
apply descending_stable_unique.
- eapply Permutation_Forall; [symmetry; exact P|now apply scored_numeric].
- eapply Permutation_Forall; [symmetry; apply allMatches_perm|].
  now apply scored_numeric.
- exact D.
- now apply allMatches_descending.
- intros s. rewrite F. symmetry. now apply allMatches_stable.
Qed.

(** C2, as the code has it.  For every store and query vector, the
    ranker's sorted list is a permutation of the scored records.
    Whenever all similarities are numbers (none is NaN), it is in
    descending order of score and the records sharing any one score
    appear in their store order (the sort is stable); it is then the
    only list of that kind, so that the same input gives the same
    list. *)
Theorem allMatches_stable_sort (q : list float) (db : list DbEntry) :
  Permutation (allMatches q db) (map (score q) db)
  /\ (numeric_scores q db ->
      stable_sort_spec q db (allMatches q db)
      /\ forall ranked : list Match,
           stable_sort_spec q db ranked -> ranked = allMatches q db).
Proof.
split; [apply allMatches_perm|].
intros Hn. split.
- split; [apply allMatches_perm|].
  split; [now apply allMatches_descending|].
  intros s. now apply allMatches_stable.
- intros ranked H. now apply stable_sort_unique.
Qed.

Lemma allMatches_stable_sort_witness :
  stable_sort_spec example_query plain_store (allMatches example_query plain_store).
Proof.
destruct (allMatches_stable_sort example_query plain_store) as (_ & H).
exact (proj1 (H plain_store_numeric)).
Defined.

(** C2 as stated fails on the same store: the sorted list is
    [a.png; b.png; c.png], and [a.png] (0.707) comes before [c.png] (1). *)
Lemma allMatches_stable_sort_counterexample :
  map (fun m => filePath (entry m)) (allMatches example_query example_store)
  = ["a.png"; "b.png"; "c.png"]%string
  /\ ~ stable_sort_spec example_query example_store
        (allMatches example_query example_store).
Proof.
split; [vm_compute; reflexivity|].
intros (_ & Hdesc & _).
assert (E : map similarity (allMatches example_query example_store)
            = [0x1.6a09e667f3bccp-1; nan; 1]) by (vm_compute; reflexivity).
unfold descending in Hdesc.
destruct (allMatches example_query example_store) as [|a [|b [|c [|d l]]]];
  try discriminate E.
injection E as Ea Eb Ec.
apply StronglySorted_head in Hdesc.
inversion Hdesc as [|? ? _ H1]; subst. inversion H1 as [|? ? H _]; subst.
rewrite Ea, Ec in H. vm_compute in H. discriminate H.
Qed.

(** A [topN] of zero gives no match. *)
Lemma topMatches_zero (q : list float) (db : list DbEntry) :
  topMatches q db 0 = [].
Proof. rewrite topMatches_firstn by lia. reflexivity. Qed.

(** A negative [topN] drops that many matches from the end of the list. *)
Lemma topMatches_negative (q : list float) (db : list DbEntry) (topN : Z) :
  (topN < 0)%Z ->
  topMatches q db topN
  = firstn (List.length (meaningfulMatches q db) - Z.to_nat (- topN))
           (meaningfulMatches q db).
Proof. intros H. now apply slice_0_neg. Qed.

(** C5 on the code: with [topN = -1] and two records above the threshold,
    the match list is not empty; [search] shows [c.png] as a result and
    opens it. *)
Theorem topMatches_negative_nonempty :
  map (fun m => filePath (entry m)) (topMatches example_query plain_store (-1))
  = ["c.png"%string]
  /\ output (snd (search example_provider "cat" (-1) old_snapshot))
     = [ Console LOG (Searching "cat" (Some (-1)%Z));
         Console LOG (TopMatchesFound 1);
         Console LOG (ResultHeader 1);
         Console LOG (FileLine "c.png");
         Console LOG (ScoreLine 1);
         OpenFile "c.png" ]
  /\ main example_provider imageless_tree ["search"; "cat"; "-1"]%string old_snapshot
     = bind (console_log Banner)
         (fun _ => search example_provider "cat" (-1)) old_snapshot.
Proof. repeat split; vm_compute; reflexivity. Qed.

End RankingFacts.

(** ** Running the scripts: the monad unfolded *)
Module RunFacts.

Lemma bind_ret {A B : Type} (a : A) (k : A -> M B) (w : world) :
  bind (ret a) k w = k a w.
Proof. reflexivity. Qed.

Lemma bind_emit {B : Type} (e : event) (k : unit -> M B) (w : world) :
  bind (emit e) k w = k tt {| disk := disk w; output := output w ++ [e] |}.
Proof. reflexivity. Qed.

Lemma bind_throw {A B : Type} (m : M A) (k : A -> M B) (w w' : world) (e : exn) :
  m w = (Throw e, w') -> bind m k w = (Throw e, w').
Proof. intros H. unfold bind. now rewrite H. Qed.

Lemma bind_ret_lift {A B : Type} (a : A) (k : A -> M B) (w : world) :
  bind (lift (Return a)) k w = k a w.
Proof. reflexivity. Qed.

Lemma bind_eq {A B : Type} (m : M A) (k : A -> M B) (w w' : world) (a : A) :
  m w = (Return a, w') -> bind m k w = k a w'.
Proof. intros H. unfold bind. now rewrite H. Qed.

Lemma loadDatabase_loaded (w : world) (db : list DbEntry) :
  disk w = Some (Json db) -> loadDatabase w = (Return (Some db), w).
Proof.
intros H. unfold loadDatabase, try_catch, bind, readFile. rewrite H. reflexivity.
Qed.

(** Both ways of failing to load end in the same two error lines. *)
Lemma loadDatabase_failed (w : world) :
  disk w = None \/ (exists text, disk w = Some (Garbage text)) ->
  loadDatabase w
  = (Return None,
     {| disk := disk w;
        output := output w ++ [Console ERROR DatabaseNotFound;
                               Console ERROR RunIndexFirst] |}).
Proof.
destruct w as [d o]. cbn [disk output].
intros [H|[text H]]; subst d;
  unfold loadDatabase, try_catch, bind, readFile, JSON_parse, throw, ret,
    console_error, emit;
  cbn [disk output]; rewrite <- app_assoc; reflexivity.
Qed.

End RunFacts.

(** ** Searching: load failures and the below-threshold diagnostic *)
Module SearchFacts.
Import JsArray ListFacts ArrayFacts RankingFacts RunFacts.
Local Open Scope float_scope.

(** C4, as the code has it.  In both versions, [search] reports a load
    failure in one and the same way, with the two "not found" error lines
    and nothing else, whether the snapshot file is missing or its content
    is not valid JSON; the disk is left as it was. *)
Theorem search_load_failure (provider : Provider) (query : string) (topN : Z)
  (w : world) :
  disk w = None \/ (exists text, disk w = Some (Garbage text)) ->
  V340.search provider query topN w
  = (Return tt,
     {| disk := disk w;
        output := output w ++ [Console LOG (Searching query (Some topN));
                               Console ERROR DatabaseNotFound;
                               Console ERROR RunIndexFirst] |})
  /\ V301.search provider query w
     = (Return tt,
        {| disk := disk w;
           output := output w ++ [Console LOG (Searching query None);
                                  Console ERROR DatabaseNotFound;
                                  Console ERROR RunIndexFirst] |}).
Proof.
intros H.
split; unfold V340.search, V301.search, console_log; rewrite bind_emit;
  (erewrite bind_eq by (apply loadDatabase_failed; exact H));
  unfold ret; cbn [disk output]; rewrite <- app_assoc; reflexivity.
Qed.

Lemma search_load_failure_witness :
  V340.search example_provider "cat" 4 {| disk := Some (Garbage "{"); output := [] |}
  = (Return tt,
     {| disk := Some (Garbage "{");
        output := [Console LOG (Searching "cat" (Some 4%Z));
                   Console ERROR DatabaseNotFound;
                   Console ERROR RunIndexFirst] |}).
Proof.
refine (proj1 (search_load_failure example_provider "cat" 4
                 {| disk := Some (Garbage "{"); output := [] |} _)).
right. exists "{"%string. reflexivity.
Defined.

(** C4 as stated fails: a snapshot that is not JSON gets no error of its
    own; what [search] prints for it is what it prints for a missing file. *)
Lemma search_corrupt_counterexample :
  output (snd (V340.search example_provider "cat" 4
                 {| disk := Some (Garbage "{"); output := [] |}))
  = output (snd (V340.search example_provider "cat" 4
                   {| disk := None; output := [] |}))
  /\ output (snd (V301.search example_provider "cat"
                    {| disk := Some (Garbage "{"); output := [] |}))
     = output (snd (V301.search example_provider "cat"
                      {| disk := None; output := [] |})).
Proof. split; reflexivity. Qed.

Lemma slice_nil {A : Type} (start end_ : Z) : slice (@nil A) start end_ = [].
Proof. unfold slice. now rewrite skipn_nil, firstn_nil. Qed.

Lemma leb_refl_numeric (x : float) : numeric x -> (x <=? x) = true.
Proof. intros H. rewrite Num.leb_ord by assumption. apply Z.leb_refl. Qed.

(** The head of a descending list of numbers scores highest. *)
Lemma head_highest (best : Match) (rest : list Match) :
  score_numeric best -> descending (best :: rest) ->
  highest_scoring best (best :: rest).
Proof.
intros Hn Hd. split; [now left|].
constructor; [now apply leb_refl_numeric|].
now apply StronglySorted_head in Hd.
Qed.

(** C6, as the code has it.  Whenever no record of a non-empty store
    reaches the threshold, the match list is empty and [search] prints,
    after its heading, that there is no meaningful match and then the
    diagnostic line for the first pair of the sorted list; no result is
    listed and no file is opened.  Whenever all similarities are numbers
    (none is NaN), that first pair scores highest in the store. *)
Theorem search_no_match_diagnostic (provider : Provider) (query : string)
  (topN : Z) (w : world) (db : list DbEntry) (q : list float) :
  disk w = Some (Json db) -> db <> [] ->
  embedText provider query = Return q ->
  V340.meaningfulMatches q db = [] ->
  exists (best : Match) (others : list Match),
    V340.allMatches q db = best :: others
    /\ V340.topMatches q db topN = []
    /\ V340.bestBelowThreshold q db topN = Some best
    /\ V340.search provider query topN w
       = (Return tt,
          {| disk := disk w;
             output := output w
               ++ [Console LOG (Searching query (Some topN));
                   Console LOG NoMeaningfulMatches;
                   Console LOG (BestBelowThreshold
                                  (Path.basename (filePath (entry best)))
                                  (similarity best))] |})
    /\ (numeric_scores q db -> highest_scoring best (V340.allMatches q db)).
Proof.
intros Hdisk Hdb Hq Hm.
assert (Htop : V340.topMatches q db topN = []).
{ unfold V340.topMatches. rewrite Hm. apply slice_nil. }
pose proof (allMatches_perm q db) as Hperm.
destruct (V340.allMatches q db) as [|best rest] eqn:Eall.
{ apply Permutation_nil in Hperm.
  destruct db; [congruence|discriminate Hperm]. }
exists best, rest. split; [reflexivity|]. split; [exact Htop|]. split; [|split].
- unfold V340.bestBelowThreshold. now rewrite Htop, Eall.
- unfold V340.search, console_log. rewrite bind_emit.
  erewrite bind_eq by (apply loadDatabase_loaded; exact Hdisk).
  destruct db as [|e db']; [congruence|]. cbn [List.length Nat.eqb].
  erewrite bind_eq by (unfold lift; rewrite Hq; reflexivity).
  cbv zeta. rewrite Htop, Eall.
  cbn [List.length Nat.ltb Nat.leb]. rewrite !bind_emit.
  unfold emit. cbn [disk output]. rewrite <- !app_assoc. reflexivity.
- intros Hn.
  assert (Hnum : Forall score_numeric (best :: rest)).
  { eapply Permutation_Forall; [symmetry; exact Hperm|now apply scored_numeric]. }
  apply head_highest; [now inversion Hnum|].
  rewrite <- Eall. now apply allMatches_descending.
Qed.

Lemma faint_plain_store_numeric : numeric_scores example_query faint_plain_store.
Proof. repeat constructor. Qed.

Lemma search_no_match_diagnostic_witness :
  exists best : Match,
    highest_scoring best (V340.allMatches example_query faint_plain_store)
    /\ filePath (entry best) = "c.png"%string
    /\ V340.search example_provider "cat" 4
         {| disk := Some (Json faint_plain_store); output := [] |}
       = (Return tt,
          {| disk := Some (Json faint_plain_store);
             output := [Console LOG (Searching "cat" (Some 4%Z));
                        Console LOG NoMeaningfulMatches;
                        Console LOG (BestBelowThreshold "c.png" (similarity best))] |}).
Proof.
destruct (search_no_match_diagnostic example_provider "cat" 4
            {| disk := Some (Json faint_plain_store); output := [] |}
            faint_plain_store example_query)
  as (best & others & Eall & _ & _ & Hrun & Hbest);
  [reflexivity|discriminate|reflexivity|vm_compute; reflexivity|].
assert (Ec : filePath (entry best) = "c.png"%string).
{ assert (E : map (fun m => filePath (entry m))
                (V340.allMatches example_query faint_plain_store)
              = ["c.png"; "a.png"]%string) by (vm_compute; reflexivity).
  rewrite Eall in E. now injection E. }
exists best. split; [exact (Hbest faint_plain_store_numeric)|]. split; [exact Ec|].
rewrite Hrun. cbn [disk output app]. now rewrite Ec.
Defined.

(** C6 as stated fails on a store with a NaN similarity: no record of
    [faint_store] reaches the threshold, the diagnostic shown is [a.png]
    (0.0995), and [c.png] scores higher (0.196). *)
Lemma search_no_match_diagnostic_counterexample :
  V340.meaningfulMatches example_query faint_store = []
  /\ output (snd (V340.search example_provider "cat" 4
                    {| disk := Some (Json faint_store); output := [] |}))
     = [ Console LOG (Searching "cat" (Some 4%Z));
         Console LOG NoMeaningfulMatches;
         Console LOG (BestBelowThreshold "a.png" 0x1.9791363068b54p-4) ]
  /\ map similarity (V340.allMatches example_query faint_store)
     = [0x1.9791363068b54p-4; nan; 0x1.91a556151761cp-3]
  /\ forall best : Match,
       V340.bestBelowThreshold example_query faint_store 4 = Some best ->
       ~ highest_scoring best (V340.allMatches example_query faint_store).
Proof.
split; [vm_compute; reflexivity|]. split; [vm_compute; reflexivity|].
split; [vm_compute; reflexivity|].
intros best Hbest [_ Hall].
assert (E : V340.bestBelowThreshold example_query faint_store 4
            = Some (V340.score example_query
                      {| filePath := "a.png"; embedding := [1; 10] |}))
  by (vm_compute; reflexivity).
rewrite E in Hbest. injection Hbest as <-.
rewrite Forall_forall in Hall.
specialize (Hall (V340.score example_query
                    {| filePath := "c.png"; embedding := [1; 5] |})).
assert (Hin : In (V340.score example_query
                    {| filePath := "c.png"; embedding := [1; 5] |})
                 (V340.allMatches example_query faint_store)).
{ eapply Permutation_in; [symmetry; apply allMatches_perm|].
  right. right. left. reflexivity. }
specialize (Hall Hin). vm_compute in Hall. discriminate Hall.
Qed.

End SearchFacts.

(** ** Indexing *)
Module IndexFacts.
Import RunFacts.


Lemma world_eta (w : world) :
  {| disk := disk w; output := output w ++ [] |} = w.
Proof. destruct w. cbn. now rewrite app_nil_r. Qed.

(** *** Enumeration in v3.0.1: never fails, never writes, only warns *)


Lemma eachEntry_quiet (dir : string) (entries : list dirent) :
  Forall (fun e => match e with
                   | File _ => True
                   | Dir _ c => forall d, runs_quietly (V301.findImageFilesRecursive d c)
                   end) entries ->
  forall imageFiles : list string,
    runs_quietly (eachEntry V301.findImageFilesRecursive dir entries imageFiles).
Proof.
induction 1 as [|e rest He _ IH]; intros acc.
- exists acc, []. split; [constructor|]. intros w. cbn. now rewrite world_eta.
- destruct e as [name|name c]; cbn [eachEntry].
  + destruct (is_image name); apply IH.
  + destruct (He (Path.join dir name)) as (found & ev1 & Q1 & E1).
    destruct (IH (acc ++ found)) as (files & ev2 & Q2 & E2).
    exists files, (ev1 ++ ev2). split; [now apply Forall_app|].
    intros w. erewrite bind_eq by apply E1. rewrite E2. cbn [disk output].
    now rewrite app_assoc.
Qed.

Lemma findImageFilesRecursive_quiet (tree : readdir_result) :
  forall dir : string, runs_quietly (V301.findImageFilesRecursive dir tree).
Proof.
induction tree as [message|entries IH] using tree_ind; intros dir.
- exists [], [Console WARN (CouldNotReadDirectory dir message)].
  split; [repeat constructor|]. intros w. reflexivity.
- cbn [V301.findImageFilesRecursive]. now apply eachEntry_quiet.
Qed.

(** *** Enumeration in v3.4.0: no effect on the world, but it may fail *)


Lemma eachEntry_pure (dir : string) (entries : list dirent) :
  Forall (fun e => match e with
                   | File _ => True
                   | Dir _ c => forall d, runs_purely (V340.findImageFilesRecursive d c)
                   end) entries ->
  forall imageFiles : list string,
    runs_purely (eachEntry V340.findImageFilesRecursive dir entries imageFiles).
Proof.
induction 1 as [|e rest He _ IH]; intros acc.
- exists (Return acc). reflexivity.
- destruct e as [name|name c]; cbn [eachEntry].
  + destruct (is_image name); apply IH.
  + destruct (He (Path.join dir name)) as ([found|err] & E1).
    * destruct (IH (acc ++ found)) as (r & E2).
      exists r. intros w. erewrite bind_eq by apply E1. apply E2.
    * exists (Throw err). intros w. unfold bind. now rewrite E1.
Qed.

Lemma findImageFilesRecursive_pure (tree : readdir_result) :
  forall dir : string, runs_purely (V340.findImageFilesRecursive dir tree).
Proof.
induction tree as [message|entries IH] using tree_ind; intros dir.
- exists (Throw (Error message)). reflexivity.
- cbn [V340.findImageFilesRecursive]. now apply eachEntry_pure.
Qed.

(** *** The loop over the discovered files *)

Lemma attempted_uncapped (count : Z) (files : list string) :
  attempted None count files = files.
Proof.
revert count. induction files as [|f files IH]; intros count; cbn.
- reflexivity.
- now rewrite IH.
Qed.

Lemma attempted_prefix (limit : option Z) (files : list string) :
  forall count : Z, exists k : nat, attempted limit count files = firstn k files.
Proof.
induction files as [|f files IH]; intros count; cbn [attempted].
- exists 0%nat. reflexivity.
- destruct (limit_reached limit count).
  + exists 0%nat. reflexivity.
  + destruct (IH (count + 1)%Z) as [k Hk]. exists (S k). cbn. now rewrite Hk.
Qed.

Lemma embedded_paths (provider : Provider) (files : list string) :
  map filePath (embedded provider files) = filter (succeeds provider) files.
Proof.
unfold embedded, succeeds.
induction files as [|f files IH]; cbn [flat_map map filter].
- reflexivity.
- destruct (embedImage provider f); cbn [app map filePath]; now rewrite IH.
Qed.

Lemma embedded_length (provider : Provider) (files : list string) :
  List.length (embedded provider files)
  = List.length (filter (succeeds provider) files).
Proof. now rewrite <- embedded_paths, length_map. Qed.

Lemma skips_reported_nil (provider : Provider) (l : level)
  (text : exn -> outcome string) (events : list event) :
  skips_reported provider l text [] events.
Proof. intros f e m []. Qed.

Lemma skips_reported_success (provider : Provider) (l : level)
  (text : exn -> outcome string) (f : string)
  (files : list string) (v : list float) (first : event) (events : list event) :
  embedImage provider f = Return v ->
  skips_reported provider l text files events ->
  skips_reported provider l text (f :: files) (first :: events).
Proof.
intros E H f' e m [<-|Hin] He Hm.
- congruence.
- right. now apply (H f' e m).
Qed.

Lemma skips_reported_failure (provider : Provider) (l : level)
  (text : exn -> outcome string) (f : string)
  (files : list string) (err : exn) (message : string) (first : event)
  (events : list event) :
  embedImage provider f = Throw err ->
  text err = Return message ->
  skips_reported provider l text files events ->
  skips_reported provider l text (f :: files)
    (first :: Console l (SkippingFile f message) :: events).
Proof.
intros E T H f' e m [<-|Hin] He Hm.
- right. left. congruence.
- right. right. now apply (H f' e m).
Qed.

(** The loop of v3.0.1 gets through every file it attempts, whatever the
    provider throws. *)
Lemma processFiles_301 (provider : Provider) (limit : option Z) (total : nat)
  (files : list string) :
  forall (count : Z) (db : list DbEntry) (w : world),
  exists events : list event,
    V301.processFiles provider limit total files count db w
    = (Return (db ++ embedded provider (attempted limit count files)),
       {| disk := disk w; output := output w ++ events |})
    /\ Forall quiet events
    /\ skips_reported provider WARN guarded_message
         (attempted limit count files) events.
Proof.
induction files as [|f files IH]; intros count db w;
  cbn [V301.processFiles attempted].
- exists []. cbn. rewrite app_nil_r, world_eta.
  repeat split; [constructor|apply skips_reported_nil].
- destruct (limit_reached limit count).
  + eexists [_]. unfold console_log. rewrite bind_emit. cbn.
    rewrite app_nil_r. repeat split; [repeat constructor|apply skips_reported_nil].
  + unfold console_log, console_warn. rewrite bind_emit.
    destruct (embedImage provider f) as [v|err] eqn:E.
    * edestruct IH as (evs & Heq & Q & S).
      eexists (_ :: evs). rewrite Heq. cbn [disk output embedded flat_map].
      rewrite E, <- !app_assoc. split; [reflexivity|].
      split; [constructor; [exact I|exact Q]|].
      eapply skips_reported_success; eassumption.
    * cbv zeta. rewrite bind_emit.
      edestruct IH as (evs & Heq & Q & S).
      eexists (_ :: _ :: evs). rewrite Heq. cbn [disk output embedded flat_map].
      rewrite E, <- !app_assoc. split; [reflexivity|].
      split; [constructor; [exact I|constructor; [exact I|exact Q]]|].
      eapply skips_reported_failure; [exact E|reflexivity|exact S].
Qed.

(** What [(e as Error).message] throws is an [Error]. *)
Lemma message_of_throws (e typeError : exn) :
  message_of e = Throw typeError -> exists message, typeError = Error message.
Proof. destruct e; cbn; intros H; try discriminate H; injection H as <-; eauto. Qed.

Lemma handler_failure_error (provider : Provider) (files : list string)
  (typeError : exn) :
  handler_failure provider files = Some typeError ->
  exists message, typeError = Error message.
Proof.
induction files as [|f files IH]; cbn [handler_failure]; [discriminate|].
destruct (embedImage provider f) as [v|e]; [exact IH|].
destruct (message_of e) as [m|t] eqn:T; [exact IH|].
intros [= <-]. now apply message_of_throws in T.
Qed.

(** The loop of v3.4.0 gets through the files it attempts unless its own
    [catch] throws: then the loop ends there, with that error. *)
Lemma processFiles_340 (provider : Provider) (limit : option Z) (total : nat)
  (files : list string) :
  forall (count : Z) (db : list DbEntry) (w : world),
  exists events : list event,
    V340.processFiles provider limit total files count db w
    = (match handler_failure provider (attempted limit count files) with
       | Some typeError => Throw typeError
       | None => Return (db ++ embedded provider (attempted limit count files))
       end,
       {| disk := disk w; output := output w ++ events |})
    /\ Forall quiet events
    /\ (handler_failure provider (attempted limit count files) = None ->
        skips_reported provider LOG message_of
          (attempted limit count files) events).
Proof.
induction files as [|f files IH]; intros count db w;
  cbn [V340.processFiles attempted].
- exists []. cbn. rewrite app_nil_r, world_eta.
  repeat split; [constructor|intros _; apply skips_reported_nil].
- destruct (limit_reached limit count).
  + eexists [_]. unfold console_log. rewrite bind_emit. cbn.
    rewrite app_nil_r.
    repeat split; [repeat constructor|intros _; apply skips_reported_nil].
  + unfold console_log. rewrite bind_emit. cbn [handler_failure].
    destruct (embedImage provider f) as [v|err] eqn:E.
    * edestruct IH as (evs & Heq & Q & S).
      eexists (_ :: evs). rewrite Heq. cbn [disk output embedded flat_map].
      rewrite E, <- !app_assoc. split; [reflexivity|].
      split; [constructor; [exact I|exact Q]|].
      intros N. eapply skips_reported_success; [exact E|now apply S].
    * destruct (message_of err) as [m|t] eqn:T.
      -- rewrite bind_ret_lift, bind_emit.
         edestruct IH as (evs & Heq & Q & S).
         eexists (_ :: _ :: evs). rewrite Heq. cbn [disk output embedded flat_map].
         rewrite E, <- !app_assoc. split; [reflexivity|].
         split; [constructor; [exact I|constructor; [exact I|exact Q]]|].
         intros N. eapply skips_reported_failure; [exact E|exact T|now apply S].
      -- eexists [_]. unfold bind, lift. cbn [disk output].
         split; [reflexivity|]. split; [repeat constructor|discriminate].
Qed.

(** *** Whole runs of [indexImages] *)


Lemma preamble_quiet (limit : option Z) : Forall quiet (preamble limit).
Proof. unfold preamble. destruct (truthy limit); repeat constructor. Qed.

Lemma run_preamble {B : Type} (limit : option Z) (k : M B) (w : world) :
  bind (console_log StartingIndexing)
    (fun _ => bind (if truthy limit
                    then console_log (ProcessingLimitSet
                                        (match limit with Some n => n | None => 0%Z end))
                    else ret tt)
                (fun _ => k)) w
  = k {| disk := disk w; output := output w ++ preamble limit |}.
Proof.
unfold console_log, preamble. rewrite bind_emit.
destruct (truthy limit).
- rewrite bind_emit. cbn [disk output]. now rewrite <- app_assoc.
- now rewrite bind_ret.
Qed.

Lemma find_301 (dir : string) (tree : readdir_result) (w : world)
  (files : list string) :
  fst (V301.findImageFilesRecursive dir tree w) = Return files ->
  exists events : list event,
    Forall quiet events
    /\ forall w0 : world,
         V301.findImageFilesRecursive dir tree w0
         = (Return files, {| disk := disk w0; output := output w0 ++ events |}).
Proof.
destruct (findImageFilesRecursive_quiet tree dir) as (files' & events & Q & E).
rewrite E. cbn [fst]. intros [= <-]. now exists events.
Qed.

Lemma find_340 (dir : string) (tree : readdir_result) (w : world)
  (r : outcome (list string)) :
  fst (V340.findImageFilesRecursive dir tree w) = r ->
  forall w0 : world, V340.findImageFilesRecursive dir tree w0 = (r, w0).
Proof.
destruct (findImageFilesRecursive_pure tree dir) as (r' & E).
rewrite E. cbn [fst]. now intros <-.
Qed.

Lemma index_301_empty (provider : Provider) (rootDir : string)
  (tree : readdir_result) (limit : option Z) (w : world) :
  fst (V301.findImageFilesRecursive rootDir tree w) = Return [] ->
  exists events : list event,
    V301.indexImages provider rootDir tree limit w
    = (Return tt, {| disk := disk w; output := output w ++ events |})
    /\ Forall quiet events
    /\ In (Console LOG (NoImagesFound rootDir)) events.
Proof.
intros H. destruct (find_301 _ _ _ _ H) as (ev & Q & E).
exists (preamble limit ++ ev ++ [Console LOG (NoImagesFound rootDir)]).
split; [|split].
- unfold V301.indexImages. rewrite run_preamble. unfold try_catch.
  erewrite bind_eq by apply E. cbn [List.length Nat.eqb].
  unfold console_log, emit. cbn [disk output]. now rewrite <- !app_assoc.
- apply Forall_app. split; [apply preamble_quiet|].
  apply Forall_app. split; [assumption|repeat constructor].
- apply in_or_app. right. apply in_or_app. right. now left.
Qed.

Lemma index_301_nonempty (provider : Provider) (rootDir : string)
  (tree : readdir_result) (limit : option Z) (w : world) (files : list string) :
  fst (V301.findImageFilesRecursive rootDir tree w) = Return files ->
  files <> [] ->
  exists events : list event,
    V301.indexImages provider rootDir tree limit w
    = (Return tt,
       {| disk := Some (Json (embedded provider (attempted limit 0 files)));
          output := output w ++ events |})
    /\ Forall quiet events
    /\ skips_reported provider WARN guarded_message (attempted limit 0 files) events.
Proof.
intros H Hne. destruct (find_301 _ _ _ _ H) as (ev & Q & E).
destruct (processFiles_301 provider limit (List.length files) files 0 []
            {| disk := disk w;
               output := ((output w ++ preamble limit) ++ ev)
                         ++ [Console LOG (FoundTotalImages (List.length files))] |})
  as (pv & P & Qp & Sp).
exists (preamble limit ++ ev
        ++ Console LOG (FoundTotalImages (List.length files)) :: pv
        ++ [Console LOG (IndexingComplete
              (List.length (embedded provider (attempted limit 0 files))))]).
split; [|split].
- unfold V301.indexImages. rewrite run_preamble. unfold try_catch.
  erewrite bind_eq by apply E.
  destruct files as [|f fs]; [congruence|]. cbn [List.length Nat.eqb].
  unfold console_log at 1. rewrite bind_emit. cbn [disk output].
  erewrite bind_eq by apply P. cbn [app].
  unfold writeFile, JSON_stringify, console_log, emit, bind. cbn [disk output].
  rewrite <- !app_assoc. reflexivity.
- apply Forall_app. split; [apply preamble_quiet|].
  apply Forall_app. split; [assumption|].
  constructor; [exact I|]. apply Forall_app. split; [assumption|repeat constructor].
- intros f e m Hf He Hm. apply in_or_app. right. apply in_or_app. right.
  right. apply in_or_app. left. now apply (Sp f e m).
Qed.

Lemma index_340_empty (provider : Provider) (imagesDir : string)
  (tree : readdir_result) (limit : option Z) (w : world) :
  fst (V340.findImageFilesRecursive imagesDir tree w) = Return [] ->
  exists events : list event,
    V340.indexImages provider imagesDir tree limit w
    = (Return tt, {| disk := disk w; output := output w ++ events |})
    /\ Forall quiet events
    /\ In (Console LOG (FoundTotalImages 0)) events.
Proof.
intros H. pose proof (find_340 _ _ _ _ H) as E.
exists (preamble limit ++ [Console LOG (FoundTotalImages 0)]).
split; [|split].
- unfold V340.indexImages. rewrite run_preamble. unfold try_catch.
  erewrite bind_eq by apply E. cbv zeta. cbn [List.length].
  unfold console_log. rewrite bind_emit. cbn [Nat.eqb disk output ret].
  now rewrite <- !app_assoc.
- apply Forall_app. split; [apply preamble_quiet|repeat constructor].
- apply in_or_app. right. now left.
Qed.

(** A run of v3.4.0 that finds images writes the records of the files it
    attempted, unless its loop ended in an error of its own [catch]: then
    the error is reported and the snapshot is left as it was. *)
Lemma index_340_nonempty (provider : Provider) (imagesDir : string)
  (tree : readdir_result) (limit : option Z) (w : world) (files : list string) :
  fst (V340.findImageFilesRecursive imagesDir tree w) = Return files ->
  files <> [] ->
  exists events : list event,
    V340.indexImages provider imagesDir tree limit w
    = (Return tt,
       {| disk := match handler_failure provider (attempted limit 0 files) with
                  | Some _ => disk w
                  | None => Some (Json (embedded provider (attempted limit 0 files)))
                  end;
          output := output w ++ events |})
    /\ match handler_failure provider (attempted limit 0 files) with
       | Some typeError =>
           exists message,
             typeError = Error message
             /\ In (Console ERROR (ErrorDuringIndexing message)) events
       | None =>
           Forall quiet events
           /\ skips_reported provider LOG message_of (attempted limit 0 files) events
       end.
Proof.
intros H Hne. pose proof (find_340 _ _ _ _ H) as E.
destruct (processFiles_340 provider limit (List.length files) files 0 []
            {| disk := disk w;
               output := (output w ++ preamble limit)
                         ++ [Console LOG (FoundTotalImages (List.length files))] |})
  as (pv & P & Qp & Sp).
pose proof (handler_failure_error provider (attempted limit 0 files)) as T.
destruct (handler_failure provider (attempted limit 0 files)) as [typeError|].
- destruct (T typeError eq_refl) as (message & ->).
  exists (preamble limit
          ++ Console LOG (FoundTotalImages (List.length files)) :: pv
          ++ [Console ERROR (ErrorDuringIndexing message);
              Console ERROR (EnsureDirectoryExists imagesDir)]).
  split.
  + unfold V340.indexImages. rewrite run_preamble. unfold try_catch.
    erewrite bind_eq by apply E. cbv zeta.
    unfold console_log at 1. rewrite bind_emit. cbn [disk output].
    destruct files as [|f fs]; [congruence|]. cbn [List.length Nat.eqb].
    erewrite bind_throw by apply P. cbn [message_of].
    rewrite bind_ret_lift. unfold console_error. rewrite bind_emit.
    unfold emit. cbn [disk output]. rewrite <- !app_assoc. reflexivity.
  + exists message. split; [reflexivity|].
    apply in_or_app. right. right. apply in_or_app. right. now left.
- exists (preamble limit
          ++ Console LOG (FoundTotalImages (List.length files)) :: pv
          ++ [Console LOG (IndexingComplete
                (List.length (embedded provider (attempted limit 0 files))))]).
  split; [|split].
  + unfold V340.indexImages. rewrite run_preamble. unfold try_catch.
    erewrite bind_eq by apply E. cbv zeta.
    unfold console_log at 1. rewrite bind_emit. cbn [disk output].
    destruct files as [|f fs]; [congruence|]. cbn [List.length Nat.eqb].
    erewrite bind_eq by apply P. cbn [app].
    unfold writeFile, JSON_stringify, console_log, emit, bind. cbn [disk output].
    rewrite <- !app_assoc. reflexivity.
  + apply Forall_app. split; [apply preamble_quiet|].
    constructor; [exact I|]. apply Forall_app. split; [assumption|repeat constructor].
  + intros f e m Hf He Hm. apply in_or_app. right.
    right. apply in_or_app. left. now apply (Sp eq_refl f e m).
Qed.

(** In v3.4.0 a failed enumeration is reported as an error and nothing is
    written. *)
Lemma index_340_failed (provider : Provider) (imagesDir : string)
  (tree : readdir_result) (limit : option Z) (w : world) (message : string) :
  fst (V340.findImageFilesRecursive imagesDir tree w) = Throw (Error message) ->
  V340.indexImages provider imagesDir tree limit w
  = (Return tt,
     {| disk := disk w;
        output := output w ++ preamble limit
                  ++ [Console ERROR (ErrorDuringIndexing message);
                      Console ERROR (EnsureDirectoryExists imagesDir)] |}).
Proof.
intros H. pose proof (find_340 _ _ _ _ H) as E.
unfold V340.indexImages. rewrite run_preamble. unfold try_catch, bind at 1.
rewrite E. cbn [message_of]. rewrite bind_ret_lift.
unfold console_error. rewrite bind_emit.
unfold emit. cbn [disk output]. now rewrite <- !app_assoc.
Qed.

(** What the enumeration of v3.4.0 throws is the error of a failed
    directory read. *)
Lemma eachEntry_throws (dir : string) (entries : list dirent) :
  Forall (fun e => match e with
                   | File _ => True
                   | Dir _ c =>
                       forall (d : string) (w : world) (err : exn),
                         fst (V340.findImageFilesRecursive d c w) = Throw err ->
                         exists message, err = Error message
                   end) entries ->
  forall (imageFiles : list string) (w : world) (err : exn),
    fst (eachEntry V340.findImageFilesRecursive dir entries imageFiles w)
    = Throw err ->
    exists message, err = Error message.
Proof.
induction 1 as [|e rest He _ IH]; intros acc w err H.
- discriminate H.
- destruct e as [name|name c]; cbn [eachEntry] in H.
  + destruct (is_image name); eapply IH; exact H.
  + destruct (findImageFilesRecursive_pure c (Path.join dir name))
      as ([found|e] & E).
    * erewrite bind_eq in H by apply E. eapply IH; exact H.
    * unfold bind in H. rewrite E in H. cbn [fst] in H. injection H as <-.
      apply (He (Path.join dir name) w). now rewrite E.
Qed.

Lemma find_340_throws (tree : readdir_result) :
  forall (dir : string) (w : world) (err : exn),
    fst (V340.findImageFilesRecursive dir tree w) = Throw err ->
    exists message, err = Error message.
Proof.
induction tree as [message|entries IH] using tree_ind; intros dir w err H.
- cbn in H. injection H as <-. now exists message.
- cbn [V340.findImageFilesRecursive] in H. eapply eachEntry_throws; eassumption.
Qed.

(** *** What runs of [indexImages] guarantee *)

(** What the v3.0.1 loop finds does not depend on the world it runs in. *)
Lemma eachEntry_independent (dir : string) (entries : list dirent)
  (imageFiles : list string) (w w' : world) :
  fst (eachEntry V301.findImageFilesRecursive dir entries imageFiles w)
  = fst (eachEntry V301.findImageFilesRecursive dir entries imageFiles w').
Proof.
destruct (eachEntry_quiet dir entries) with (imageFiles := imageFiles)
  as (files & ev & _ & E).
- rewrite Forall_forall. intros [name|name c] _; [exact I|].
  intros d. apply findImageFilesRecursive_quiet.
- now rewrite !E.
Qed.

(** A failed directory read, caught in v3.0.1, costs only the entries of
    that directory: the other entries are found as if it were not there. *)
Lemma unreadable_subdirectory_skipped_301 (dir name message : string)
  (before after : list dirent) (w : world) :
  fst (V301.findImageFilesRecursive dir
         (ReaddirOk (before ++ Dir name (ReaddirError message) :: after)) w)
  = fst (V301.findImageFilesRecursive dir (ReaddirOk (before ++ after)) w).
Proof.
cbn [V301.findImageFilesRecursive]. generalize (@nil string) as acc. revert w.
induction before as [|e before IH]; intros w acc; cbn [app eachEntry].
- cbn [V301.findImageFilesRecursive]. unfold console_warn, bind, emit, ret.
  rewrite app_nil_r. apply eachEntry_independent.
- destruct e as [n|n c].
  + destruct (is_image n); apply IH.
  + destruct (findImageFilesRecursive_quiet c (Path.join dir n))
      as (found & ev & _ & E).
    erewrite !bind_eq by apply E. apply IH.
Qed.

(** In v3.4.0 an unreadable subdirectory, met after entries that were
    enumerated without failure, makes the whole enumeration fail. *)
Lemma unreadable_subdirectory_aborts_340 (dir name message : string)
  (before after : list dirent) (w : world) (files : list string) :
  fst (V340.findImageFilesRecursive dir (ReaddirOk before) w) = Return files ->
  V340.findImageFilesRecursive dir
    (ReaddirOk (before ++ Dir name (ReaddirError message) :: after)) w
  = (Throw (Error message), w).
Proof.
cbn [V340.findImageFilesRecursive]. generalize (@nil string) as acc.
induction before as [|e before IH]; intros acc H; cbn [app eachEntry] in *.
- reflexivity.
- destruct e as [n|n c].
  + destruct (is_image n); now apply IH.
  + destruct (findImageFilesRecursive_pure c (Path.join dir n)) as ([found|err] & E).
    * erewrite bind_eq in H |- * by apply E. now apply IH.
    * unfold bind in H. rewrite E in H. discriminate H.
Qed.

(** C3 on the code: with an unreadable subdirectory next to two images,
    the v3.4.0 run ends in an error and writes nothing, where the v3.0.1
    run warns, goes on and indexes what it can. *)
Theorem index_unreadable_subdirectory :
  V340.indexImages example_provider "photos" example_tree None no_snapshot
  = (Return tt,
     {| disk := None;
        output := [ Console LOG StartingIndexing;
                    Console ERROR (ErrorDuringIndexing "EACCES: permission denied");
                    Console ERROR (EnsureDirectoryExists "photos") ] |})
  /\ V301.indexImages example_provider "photos" example_tree None no_snapshot
     = (Return tt,
        {| disk := Some (Json [ {| filePath := "photos/cat.PNG";
                                   embedding := [1; 0]%float |} ]);
           output := [ Console LOG StartingIndexing;
                       Console WARN (CouldNotReadDirectory "photos/private"
                                       "EACCES: permission denied");
                       Console LOG (FoundTotalImages 2);
                       Console LOG (Processing 1 2 "photos/cat.PNG");
                       Console LOG (Processing 2 2 "photos/broken.jpg");
                       Console WARN (SkippingFile "photos/broken.jpg"
                                       "Unsupported image type");
                       Console LOG (IndexingComplete 1) ] |})
  /\ V340.main example_provider example_tree ["index"; "photos"]%string no_snapshot
     = bind (console_log Banner)
         (fun _ => V340.indexImages example_provider "photos" example_tree None)
         no_snapshot.
Proof. repeat split; vm_compute; reflexivity. Qed.

(** In v3.0.1 no failure of the provider ends the run: on a directory
    where at least one media file is found, an uncapped run returns, writes
    the records of exactly the files the provider succeeds on, in order,
    prints a "Skipping file" warning for each of the others and no error,
    whatever the provider throws. *)
Lemma index_301_resilient (provider : Provider) (rootDir : string)
  (tree : readdir_result) (w : world) (files : list string) :
  files <> [] ->
  fst (V301.findImageFilesRecursive rootDir tree w) = Return files ->
  exists (db : list DbEntry) (events : list event),
    V301.indexImages provider rootDir tree None w
    = (Return tt, {| disk := Some (Json db); output := output w ++ events |})
    /\ List.length db = List.length (filter (succeeds provider) files)
    /\ map filePath db = filter (succeeds provider) files
    /\ Forall quiet events
    /\ skips_reported provider WARN guarded_message files events.
Proof.
intros Hne H.
destruct (index_301_nonempty provider _ _ None _ _ H Hne) as (ev & E & Q & S).
rewrite attempted_uncapped in *.
exists (embedded provider files), ev.
now rewrite embedded_length, embedded_paths.
Qed.

(** In v3.4.0 the same holds as long as the enumeration returns and the
    [catch] of the loop does not throw itself. *)
Lemma index_340_resilient (provider : Provider) (rootDir : string)
  (tree : readdir_result) (w : world) (files : list string) :
  files <> [] ->
  fst (V340.findImageFilesRecursive rootDir tree w) = Return files ->
  handler_failure provider files = None ->
  exists (db : list DbEntry) (events : list event),
    V340.indexImages provider rootDir tree None w
    = (Return tt, {| disk := Some (Json db); output := output w ++ events |})
    /\ List.length db = List.length (filter (succeeds provider) files)
    /\ map filePath db = filter (succeeds provider) files
    /\ Forall quiet events
    /\ skips_reported provider LOG message_of files events.
Proof.
intros Hne H N.
destruct (index_340_nonempty provider _ _ None _ _ H Hne) as (ev & E & R).
rewrite attempted_uncapped in *. rewrite N in *. destruct R as (Q & S).
exists (embedded provider files), ev.
now rewrite embedded_length, embedded_paths.
Qed.

(** C7 on the code.  One file of two is rejected by the provider without
    a reason ([undefined]): the v3.4.0 run reads [.message] off it, which
    throws, reports an error and writes nothing, where the v3.0.1 run
    warns, skips the file and writes the one record.  On the directory
    with an unreadable subdirectory (one file the provider succeeds on,
    one it fails on) the v3.4.0 run writes nothing either, and the v3.0.1
    run writes the one record. *)
Theorem index_item_failure_aborts :
  V340.indexImages silent_provider "photos" readable_tree None old_snapshot
  = (Return tt,
     {| disk := Some (Json plain_store);
        output := [ Console LOG StartingIndexing;
                    Console LOG (FoundTotalImages 2);
                    Console LOG (Processing 1 2 "photos/cat.PNG");
                    Console LOG (Processing 2 2 "photos/broken.jpg");
                    Console ERROR
                      (ErrorDuringIndexing
                         "Cannot read properties of undefined (reading 'message')");
                    Console ERROR (EnsureDirectoryExists "photos") ] |})
  /\ V301.indexImages silent_provider "photos" readable_tree None old_snapshot
     = (Return tt,
        {| disk := Some (Json [ {| filePath := "photos/cat.PNG";
                                   embedding := [1; 0]%float |} ]);
           output := [ Console LOG StartingIndexing;
                       Console LOG (FoundTotalImages 2);
                       Console LOG (Processing 1 2 "photos/cat.PNG");
                       Console LOG (Processing 2 2 "photos/broken.jpg");
                       Console WARN (SkippingFile "photos/broken.jpg" "undefined");
                       Console LOG (IndexingComplete 1) ] |})
  /\ disk (snd (V340.indexImages example_provider "photos" example_tree None
                  old_snapshot))
     = Some (Json plain_store)
  /\ disk (snd (V301.indexImages example_provider "photos" example_tree None
                  old_snapshot))
     = Some (Json [ {| filePath := "photos/cat.PNG"; embedding := [1; 0]%float |} ]).
Proof. repeat split; vm_compute; reflexivity. Qed.

(** C8. If the enumeration discovers no media file, the run ends at once:
    it returns normally, leaves the snapshot as it was, reports no error,
    and says that nothing was found (v3.0.1: "No images found"; v3.4.0:
    "Found 0 total images"). *)
Theorem index_nothing_found (provider : Provider) (rootDir : string)
  (tree : readdir_result) (limit : option Z) (w : world) :
  (fst (V301.findImageFilesRecursive rootDir tree w) = Return [] ->
   exists events : list event,
     V301.indexImages provider rootDir tree limit w
     = (Return tt, {| disk := disk w; output := output w ++ events |})
     /\ Forall quiet events
     /\ In (Console LOG (NoImagesFound rootDir)) events)
  /\ (fst (V340.findImageFilesRecursive rootDir tree w) = Return [] ->
      exists events : list event,
        V340.indexImages provider rootDir tree limit w
        = (Return tt, {| disk := disk w; output := output w ++ events |})
        /\ Forall quiet events
        /\ In (Console LOG (FoundTotalImages 0)) events).
Proof.
split; intros H.
- now apply index_301_empty.
- now apply index_340_empty.
Qed.

Lemma index_nothing_found_witness :
  exists events : list event,
    V340.indexImages example_provider "photos" imageless_tree (Some 5%Z) old_snapshot
    = (Return tt,
       {| disk := Some (Json plain_store); output := output old_snapshot ++ events |})
    /\ Forall quiet events
    /\ In (Console LOG (FoundTotalImages 0)) events.
Proof.
refine (proj2 (index_nothing_found example_provider "photos" imageless_tree
                 (Some 5%Z) old_snapshot) _).
reflexivity.
Defined.

Lemma written_after_run (provider : Provider) (limit : option Z)
  (files : list string) (before : option file) :
  written_in_order provider limit (Return files) before
    (Some (Json (embedded provider (attempted limit 0 files)))).
Proof.
right. destruct (attempted_prefix limit files 0) as [k Hk].
exists files, (embedded provider (attempted limit 0 files)), k.
rewrite embedded_paths, Hk. repeat split.
- intros f Hf. apply filter_In in Hf. destruct Hf as [Hf _].
  rewrite <- (firstn_skipn k files). apply in_or_app. now left.
- intros Hl. rewrite <- Hk. destruct limit as [n|]; [|apply attempted_uncapped].
  cbn in Hl. clear Hk. generalize 0%Z.
  induction files as [|f fs IH]; intros c; cbn [attempted]; [reflexivity|].
  unfold limit_reached. destruct (n =? 0)%Z; [|discriminate Hl]. cbn.
  now rewrite IH.
Qed.

(** C10. Every indexing run returns normally and either leaves the
    snapshot as it was or writes the records of the files whose embedding
    succeeded, among those the loop got to (a prefix of the enumerated
    list; the whole list when there is no cap): their identifiers are that
    subsequence of the enumerated files, in enumeration order, and nothing
    else. *)
Theorem index_preserves_order (provider : Provider) (rootDir : string)
  (tree : readdir_result) (limit : option Z) (w : world) :
  (exists (events : list event) (after : option file),
     V301.indexImages provider rootDir tree limit w
     = (Return tt, {| disk := after; output := output w ++ events |})
     /\ written_in_order provider limit
          (fst (V301.findImageFilesRecursive rootDir tree w)) (disk w) after)
  /\ (exists (events : list event) (after : option file),
        V340.indexImages provider rootDir tree limit w
        = (Return tt, {| disk := after; output := output w ++ events |})
        /\ written_in_order provider limit
             (fst (V340.findImageFilesRecursive rootDir tree w)) (disk w) after).
Proof.
split.
- destruct (findImageFilesRecursive_quiet tree rootDir) as (files & ev & _ & E).
  assert (H : fst (V301.findImageFilesRecursive rootDir tree w) = Return files)
    by now rewrite E.
  rewrite H. destruct files as [|f fs].
  + destruct (index_301_empty provider _ _ limit _ H) as (evs & Ei & _).
    exists evs, (disk w). split; [exact Ei|now left].
  + destruct (index_301_nonempty provider _ _ limit _ _ H) as (evs & Ei & _);
      [discriminate|].
    eexists evs, _. split; [exact Ei|apply written_after_run].
- destruct (fst (V340.findImageFilesRecursive rootDir tree w))
    as [[|f fs]|err] eqn:H.
  + destruct (index_340_empty provider _ _ limit _ H) as (evs & Ei & _).
    exists evs, (disk w). split; [exact Ei|now left].
  + destruct (index_340_nonempty provider _ _ limit _ _ H) as (evs & Ei & _);
      [discriminate|].
    eexists evs, _. split; [exact Ei|].
    destruct (handler_failure provider (attempted limit 0 (f :: fs)));
      [now left|apply written_after_run].
  + destruct (find_340_throws _ _ _ _ H) as (message & ->).
    eexists _, (disk w). split; [apply index_340_failed; exact H|now left].
Qed.

End IndexFacts.

(** ** More on cosine similarity: symmetry, and vectors of unequal length *)
Module CosineMore.
Import JsArray.
Local Open Scope float_scope.

Lemma mul_comm (x y : float) : x * y = y * x.
Proof.
apply Prim2SF_inj. rewrite !mul_spec. unfold SF64mul, SFmul.
destruct (Prim2SF x) as [s|s| |s m e], (Prim2SF y) as [t|t| |t n f];
  rewrite ?(xorb_comm s t), ?(Pos.mul_comm m n), ?(Z.add_comm e f); reflexivity.
Qed.

Lemma nan_unique (x : float) : is_nan x = true -> x = nan.
Proof.
intros H. rewrite <- (SF2Prim_Prim2SF x), (Num.nan_spec x H). reflexivity.
Qed.

Lemma mul_nan_r (x : float) : x * nan = nan.
Proof.
apply Prim2SF_inj. rewrite mul_spec. change (Prim2SF nan) with S754_nan.
unfold SF64mul, SFmul. now destruct (Prim2SF x).
Qed.

Lemma add_nan_l (x : float) : nan + x = nan.
Proof.
apply Prim2SF_inj. rewrite add_spec. change (Prim2SF nan) with S754_nan.
reflexivity.
Qed.

Lemma add_nan_r (x : float) : x + nan = nan.
Proof.
apply Prim2SF_inj. rewrite add_spec. change (Prim2SF nan) with S754_nan.
unfold SF64add, SFadd. now destruct (Prim2SF x).
Qed.

Lemma div_nan_l (x : float) : nan / x = nan.
Proof.
apply Prim2SF_inj. rewrite div_spec. change (Prim2SF nan) with S754_nan.
reflexivity.
Qed.

Lemma cosineSimilarity_unfold (v1 v2 : list float) :
  cosineSimilarity v1 v2
  = if (magnitude v1 =? 0) || (magnitude v2 =? 0) then 0
    else dotProduct v1 v2 / (magnitude v1 * magnitude v2).
Proof. reflexivity. Qed.

(** On vectors of one length, the two dot products add the same products
    in the same order. *)
Lemma dot_from_comm (v1 : list float) :
  forall (v2 pre1 pre2 : list float) (acc : float),
    List.length v1 = List.length v2 ->
    List.length pre1 = List.length pre2 ->
    reduce_from (fun sum a i => sum + a * at_index (pre2 ++ v2) i)
      (List.length pre1) v1 acc
    = reduce_from (fun sum a i => sum + a * at_index (pre1 ++ v1) i)
        (List.length pre2) v2 acc.
Proof.
induction v1 as [|a v1 IH]; intros [|b v2] pre1 pre2 acc Hl Hp;
  try discriminate Hl; cbn [reduce_from].
- reflexivity.
- replace (at_index (pre2 ++ b :: v2) (List.length pre1)) with b
    by (unfold at_index; now rewrite Hp, nth_middle).
  replace (at_index (pre1 ++ a :: v1) (List.length pre2)) with a
    by (unfold at_index; now rewrite <- Hp, nth_middle).
  rewrite (mul_comm a b).
  specialize (IH v2 (pre1 ++ [a]) (pre2 ++ [b]) (acc + b * a)).
  rewrite !length_app, <- !app_assoc in IH. cbn [List.length app] in IH.
  rewrite !Nat.add_1_r in IH. apply IH.
  + now injection Hl.
  + now rewrite Hp.
Qed.

Lemma dotProduct_comm (v1 v2 : list float) :
  List.length v1 = List.length v2 -> dotProduct v1 v2 = dotProduct v2 v1.
Proof.
intros H. unfold dotProduct, reduce.
exact (dot_from_comm v1 v2 [] [] 0 H eq_refl).
Qed.

(** X1. For two vectors of the same length, [cosineSimilarity] is
    symmetric, bit for bit: the arguments may be exchanged. *)
Theorem cosineSimilarity_symmetric (v1 v2 : list float) :
  List.length v1 = List.length v2 ->
  cosineSimilarity v1 v2 = cosineSimilarity v2 v1.
Proof.
intros H. rewrite !cosineSimilarity_unfold.
rewrite (dotProduct_comm v1 v2 H), (mul_comm (magnitude v1) (magnitude v2)).
now rewrite orb_comm.
Qed.

Lemma cosineSimilarity_symmetric_witness :
  cosineSimilarity [1; 2; 3] [4; 5; 6] = cosineSimilarity [4; 5; 6] [1; 2; 3].
Proof. apply cosineSimilarity_symmetric. reflexivity. Defined.

(** Once the sum is NaN it stays NaN. *)
Lemma dot_from_nan (v1 v2 : list float) :
  forall i : nat,
    reduce_from (fun sum a i => sum + a * at_index v2 i) i v1 nan = nan.
Proof.
induction v1 as [|a v1 IH]; intros i; cbn [reduce_from].
- reflexivity.
- rewrite add_nan_l. apply IH.
Qed.

Lemma dot_from_short (v1 v2 : list float) :
  forall (i : nat) (acc : float),
    (i <= List.length v2 < i + List.length v1)%nat ->
    reduce_from (fun sum a i => sum + a * at_index v2 i) i v1 acc = nan.
Proof.
induction v1 as [|a v1 IH]; intros i acc H; cbn [reduce_from List.length] in *.
- exfalso. lia.
- destruct (Nat.le_gt_cases (List.length v2) i) as [Hi|Hi].
  + unfold at_index. rewrite (nth_overflow v2 nan Hi), mul_nan_r, add_nan_r.
    apply dot_from_nan.
  + apply IH. lia.
Qed.

(** X2. A record whose vector is shorter than the query vector gets the
    similarity NaN, or 0 when one of the norms is 0; either way it does
    not reach the threshold: it is never among the meaningful matches. *)
Theorem shorter_record_never_matches (queryEmbedding : list float) (e : DbEntry) :
  (List.length (embedding e) < List.length queryEmbedding)%nat ->
  (cosineSimilarity queryEmbedding (embedding e) = nan
   \/ cosineSimilarity queryEmbedding (embedding e) = 0)
  /\ V340.meaningful (V340.score queryEmbedding e) = false.
Proof.
intros H.
assert (D : dotProduct queryEmbedding (embedding e) = nan).
{ unfold dotProduct, reduce. apply dot_from_short. lia. }
assert (C : cosineSimilarity queryEmbedding (embedding e) = nan
            \/ cosineSimilarity queryEmbedding (embedding e) = 0).
{ rewrite cosineSimilarity_unfold, D, div_nan_l.
  destruct ((magnitude queryEmbedding =? 0) || (magnitude (embedding e) =? 0));
    auto. }
split; [exact C|].
unfold V340.meaningful, V340.score. cbn [similarity].
destruct C as [-> | ->]; reflexivity.
Qed.

Lemma shorter_record_never_matches_witness :
  (cosineSimilarity [1; 1] [1] = nan \/ cosineSimilarity [1; 1] [1] = 0)
  /\ V340.meaningful
       (V340.score [1; 1] {| filePath := "short.png"; embedding := [1] |})
     = false.
Proof.
apply (shorter_record_never_matches [1; 1]
         {| filePath := "short.png"; embedding := [1] |}).
cbn. lia.
Defined.

End CosineMore.

(** ** Enumeration: what is found, and when the two versions agree *)
Module EnumerationFacts.
Import RunFacts IndexFacts.

Lemma reaches_nil (dir path : string) : ~ reaches dir (ReaddirOk []) path.
Proof. intros H. inversion H; subst; contradiction. Qed.

Lemma reaches_skip (dir : string) (e : dirent) (rest : list dirent) (path : string) :
  reaches dir (ReaddirOk rest) path -> reaches dir (ReaddirOk (e :: rest)) path.
Proof.
intros H. inversion H; subst.
- apply reaches_file; [now right|assumption].
- eapply reaches_dir; [right; eassumption|assumption].
Qed.

Lemma reaches_cons_file (dir name : string) (rest : list dirent) (path : string) :
  reaches dir (ReaddirOk (File name :: rest)) path
  <-> (is_image name = true /\ path = Path.join dir name)
      \/ reaches dir (ReaddirOk rest) path.
Proof.
split.
- intros H. inversion H as [d es n Hin Himg|d es n c p Hin Hr]; subst.
  + destruct Hin as [Heq|Hin].
    * injection Heq as ->. now left.
    * right. now apply reaches_file.
  + destruct Hin as [Heq|Hin]; [discriminate Heq|].
    right. eapply reaches_dir; eassumption.
- intros [[Himg ->]|H].
  + apply reaches_file; [now left|assumption].
  + now apply reaches_skip.
Qed.

Lemma reaches_cons_dir (dir name : string) (contents : readdir_result)
  (rest : list dirent) (path : string) :
  reaches dir (ReaddirOk (Dir name contents :: rest)) path
  <-> reaches (Path.join dir name) contents path
      \/ reaches dir (ReaddirOk rest) path.
Proof.
split.
- intros H. inversion H as [d es n Hin Himg|d es n c p Hin Hr]; subst.
  + destruct Hin as [Heq|Hin]; [discriminate Heq|].
    right. now apply reaches_file.
  + destruct Hin as [Heq|Hin].
    * injection Heq as -> ->. now left.
    * right. eapply reaches_dir; eassumption.
- intros [H|H].
  + eapply reaches_dir; [now left|exact H].
  + now apply reaches_skip.
Qed.

(** The loop adds to what it has exactly the image files reachable through
    the entries it goes over. *)
Lemma eachEntry_reaches (dir : string) (entries : list dirent) :
  Forall (fun e => match e with
                   | File _ => True
                   | Dir _ c =>
                       forall (d : string) (w : world) (files : list string),
                         fst (V301.findImageFilesRecursive d c w) = Return files ->
                         forall path, In path files <-> reaches d c path
                   end) entries ->
  forall (imageFiles : list string) (w : world) (files : list string),
    fst (eachEntry V301.findImageFilesRecursive dir entries imageFiles w)
    = Return files ->
    exists found : list string,
      files = imageFiles ++ found
      /\ forall path, In path found <-> reaches dir (ReaddirOk entries) path.
Proof.
induction 1 as [|e rest He _ IH]; intros acc w files E.
- cbn in E. injection E as <-. exists []. split; [now rewrite app_nil_r|].
  intros path. split; [contradiction|]. intros H. now apply reaches_nil in H.
- destruct e as [name|name c]; cbn [eachEntry] in E.
  + destruct (is_image name) eqn:Himg.
    * destruct (IH _ _ _ E) as (found & -> & Hf).
      exists (Path.join dir name :: found). split; [now rewrite <- app_assoc|].
      intros path. rewrite reaches_cons_file, <- Hf. cbn [In].
      split; intros [H|H]; auto.
      -- destruct H as [_ ->]. now left.
    * destruct (IH _ _ _ E) as (found & -> & Hf).
      exists found. split; [reflexivity|].
      intros path. rewrite reaches_cons_file, <- Hf.
      split; [now right|]. intros [[H _]|H]; [congruence|exact H].
  + destruct (findImageFilesRecursive_quiet c (Path.join dir name))
      as (sub & evs & _ & Esub).
    erewrite bind_eq in E by apply Esub.
    destruct (IH _ _ _ E) as (found & -> & Hf).
    exists (sub ++ found). split; [now rewrite <- app_assoc|].
    intros path. rewrite reaches_cons_dir, <- Hf, in_app_iff.
    rewrite (He (Path.join dir name) w sub); [reflexivity|].
    now rewrite Esub.
Qed.

(** X3. The enumeration of v3.0.1 always returns, and what it returns are
    exactly the image files of the tree that lie in readable directories
    all the way down: each of them, and nothing else. *)
Theorem findImageFilesRecursive_finds_reachable (dir : string)
  (tree : readdir_result) (w : world) :
  exists files : list string,
    fst (V301.findImageFilesRecursive dir tree w) = Return files
    /\ forall path : string, In path files <-> reaches dir tree path.
Proof.
destruct (findImageFilesRecursive_quiet tree dir) as (files & evs & _ & E).
exists files. split; [now rewrite E|].
assert (G : forall t d w0 fs,
          fst (V301.findImageFilesRecursive d t w0) = Return fs ->
          forall path, In path fs <-> reaches d t path).
{ clear. induction t as [message|entries IH] using tree_ind; intros d w0 fs E.
  - cbn in E. injection E as <-. intros path. split; [contradiction|].
    intros H. inversion H.
  - cbn [V301.findImageFilesRecursive] in E.
    destruct (eachEntry_reaches d entries IH [] w0 fs E) as (found & -> & Hf).
    exact Hf. }
apply (G tree dir w). now rewrite E.
Qed.

Lemma eachEntry_readable (dir : string) (entries : list dirent) :
  Forall (fun e => match e with
                   | File _ => True
                   | Dir _ c =>
                       forall (d : string) (w : world),
                         if all_readable c
                         then V340.findImageFilesRecursive d c w
                              = V301.findImageFilesRecursive d c w
                              /\ exists files,
                                   V340.findImageFilesRecursive d c w
                                   = (Return files, w)
                         else exists message,
                                V340.findImageFilesRecursive d c w
                                = (Throw (Error message), w)
                   end) entries ->
  forall (imageFiles : list string) (w : world),
    if forallb (fun e => match e with
                         | File _ => true
                         | Dir _ contents => all_readable contents
                         end) entries
    then eachEntry V340.findImageFilesRecursive dir entries imageFiles w
         = eachEntry V301.findImageFilesRecursive dir entries imageFiles w
         /\ exists files,
              eachEntry V340.findImageFilesRecursive dir entries imageFiles w
              = (Return files, w)
    else exists message,
           eachEntry V340.findImageFilesRecursive dir entries imageFiles w
           = (Throw (Error message), w).
Proof.
induction 1 as [|e rest He _ IH]; intros acc w.
- cbn. split; [reflexivity|]. now exists acc.
- destruct e as [name|name c]; cbn [eachEntry forallb].
  + cbn [andb]. destruct (is_image name); apply IH.
  + specialize (He (Path.join dir name) w).
    destruct (all_readable c); cbn [andb].
    * destruct He as (Eq & sub & Esub).
      specialize (IH (acc ++ sub) w).
      rewrite Eq in Esub.
      destruct (forallb _ rest).
      -- destruct IH as (IHeq & files & IHr).
         erewrite (bind_eq (V301.findImageFilesRecursive _ c)) by apply Esub.
         rewrite <- Eq in Esub. erewrite bind_eq by apply Esub.
         split; [exact IHeq|]. now exists files.
      -- destruct IH as (message & IHt). exists message.
         rewrite <- Eq in Esub. erewrite bind_eq by apply Esub. exact IHt.
    * destruct He as (message & Et). exists message.
      unfold bind. now rewrite Et.
Qed.

Lemma findImageFilesRecursive_readable (tree : readdir_result) :
  forall (dir : string) (w : world),
    if all_readable tree
    then V340.findImageFilesRecursive dir tree w
         = V301.findImageFilesRecursive dir tree w
         /\ exists files,
              V340.findImageFilesRecursive dir tree w = (Return files, w)
    else exists message,
           V340.findImageFilesRecursive dir tree w = (Throw (Error message), w).
Proof.
induction tree as [message|entries IH] using tree_ind; intros dir w.
- cbn. now exists message.
- cbn [all_readable V340.findImageFilesRecursive V301.findImageFilesRecursive].
  now apply eachEntry_readable.
Qed.

(** X4. The enumeration of v3.4.0 succeeds exactly on the trees all of
    whose directories can be read; there it does what the enumeration of
    v3.0.1 does, and prints nothing.  With an unreadable directory
    anywhere in the tree it throws, whatever else the tree holds. *)
Theorem findImageFilesRecursive_versions_agree (dir : string)
  (tree : readdir_result) (w : world) :
  (all_readable tree = true <->
   exists files, V340.findImageFilesRecursive dir tree w = (Return files, w))
  /\ (all_readable tree = false <->
      exists message,
        V340.findImageFilesRecursive dir tree w = (Throw (Error message), w))
  /\ (all_readable tree = true ->
      V340.findImageFilesRecursive dir tree w
      = V301.findImageFilesRecursive dir tree w).
Proof.
pose proof (findImageFilesRecursive_readable tree dir w) as H.
destruct (all_readable tree).
- destruct H as (Eq & files & E). repeat split; auto.
  + intros _. now exists files.
  + discriminate.
  + intros (message & Et). rewrite E in Et. discriminate Et.
- destruct H as (message & Et). repeat split; auto.
  + discriminate.
  + intros (files & E). rewrite Et in E. discriminate E.
  + intros _. now exists message.
  + discriminate.
Qed.

End EnumerationFacts.

(** ** File names: which ones count as images *)
Module NameFacts.
Import Path.

Lemma from_last_suffix (sep : ascii) (s t : string) :
  from_last sep s = Some t -> exists pre : string, s = (pre ++ t)%string.
Proof.
revert t. induction s as [|c rest IH]; intros t H; [discriminate H|].
cbn [from_last] in H. destruct (from_last sep rest) as [u|].
- injection H as ->. destruct (IH t eq_refl) as (pre & ->).
  now exists (String c pre).
- destruct (Ascii.eqb c sep); [|discriminate H].
  injection H as <-. now exists EmptyString.
Qed.

(** After the last separator there is none. *)
Lemma from_last_app (sep : ascii) (pre tail : string) :
  from_last sep tail = None ->
  from_last sep (pre ++ String sep tail) = Some (String sep tail).
Proof.
intros H. induction pre as [|c pre IH]; cbn [append from_last].
- now rewrite H, Ascii.eqb_refl.
- now rewrite IH.
Qed.

Lemma lower_dot (c : ascii) : lower c = "."%char -> c = "."%char.
Proof.
destruct c as [[] [] [] [] [] [] [] []]; vm_compute; intros H;
  solve [reflexivity | discriminate H].
Qed.

Lemma lower_letter (c d : ascii) :
  lower c = d -> d <> "."%char -> Ascii.eqb c "." = false.
Proof.
intros H Hd. destruct (Ascii.eqb_spec c "."%char) as [->|]; [|reflexivity].
exfalso. apply Hd. now rewrite <- H.
Qed.

(** An extension of the list, in whatever case, is its own extension when
    it follows a stem. *)
Lemma extname_of_extension (ext : string) :
  In (toLowerCase ext) IMAGE_EXTENSIONS ->
  exists tail : string,
    ext = String "." tail /\ from_last "." tail = None.
Proof.
intros H. unfold IMAGE_EXTENSIONS in H. cbn [In] in H.
assert (D : forall (c d : ascii), lower c = d -> d <> "."%char ->
            Ascii.eqb c "." = false) by exact lower_letter.
destruct H as [H|[H|[H|[H|[]]]]];
  repeat (destruct ext as [|? ext]; cbn [toLowerCase] in H; try discriminate H);
  injection H as H0 H1 H2 H3; try (injection H3 as H3 H4);
  apply eq_sym, lower_dot in H0; subst;
  eexists; (split; [reflexivity|]); cbn [from_last];
  repeat match goal with
         | E : _ = lower ?c |- context [Ascii.eqb ?c "."] =>
             rewrite (D c _ (eq_sym E)) by discriminate
         end; reflexivity.
Qed.

Lemma includes_In (list : list string) (s : string) :
  includes list s = true <-> In s list.
Proof.
unfold includes. rewrite existsb_exists. split.
- intros (x & Hin & Heq). apply String.eqb_eq in Heq. now subst.
- intros H. exists s. split; [exact H|apply String.eqb_refl].
Qed.

(** X5. A directory entry counts as an image exactly when its name is a
    non-empty stem followed by [.png], [.jpg], [.jpeg] or [.webp] in any
    mix of upper and lower case; a name that is only an extension, such
    as [.png], does not count. *)
Theorem is_image_iff_extension (name : string) :
  is_image name = true <-> image_name name.
Proof.
unfold is_image. rewrite includes_In. split.
- intros H. destruct name as [|c rest]; [cbn in H; intuition discriminate|].
  cbn [extname] in H. destruct (from_last "." rest) as [t|] eqn:E.
  + destruct (from_last_suffix _ _ _ E) as (pre & ->).
    exists (String c pre), t. repeat split; [discriminate|exact H].
  + cbn in H. intuition discriminate.
- intros (stem & ext & -> & Hstem & Hext).
  destruct stem as [|c stem]; [contradiction|].
  destruct (extname_of_extension ext Hext) as (tail & -> & Htail).
  cbn [append extname]. now rewrite (from_last_app _ stem tail Htail).
Qed.

End NameFacts.

(** ** Indexing: caps, and runs over readable and unreadable trees *)
Module CapFacts.
Import RunFacts IndexFacts EnumerationFacts.

Lemma attempted_capped (n : Z) (files : list string) :
  (0 < n)%Z ->
  forall count : Z,
    (0 <= count)%Z ->
    attempted (Some n) count files = firstn (Z.to_nat (n - count)) files.
Proof.
intros Hn. induction files as [|f rest IH]; intros count Hc; cbn [attempted].
- now rewrite firstn_nil.
- unfold limit_reached.
  destruct (Z.eqb_spec n 0) as [->|_]; [lia|]. cbn [negb andb].
  destruct (Z.leb_spec n count) as [Hle|Hlt].
  + replace (Z.to_nat (n - count)) with 0%nat by lia. reflexivity.
  + replace (Z.to_nat (n - count)) with (S (Z.to_nat (n - (count + 1)))) by lia.
    cbn [firstn]. f_equal. apply IH. lia.
Qed.

Lemma attempted_negative (n : Z) (files : list string) :
  (n < 0)%Z -> attempted (Some n) 0 files = [].
Proof.
intros Hn. destruct files as [|f rest]; [reflexivity|]. cbn [attempted].
unfold limit_reached.
destruct (Z.eqb_spec n 0) as [->|_]; [lia|].
destruct (Z.leb_spec n 0) as [_|H]; [reflexivity|lia].
Qed.

(** X6. With a positive limit [n], a run that finds images gets to the
    first [n] of them in discovery order (all of them when there are
    fewer).  v3.0.1 writes the records of those the provider succeeds on;
    so does v3.4.0, unless the provider rejects one of these files with
    [null] or [undefined]: then it writes nothing.  At most [n] records
    are written. *)
Theorem index_positive_limit (provider : Provider) (dir : string)
  (tree : readdir_result) (n : Z) (w : world) (files : list string) :
  (0 < n)%Z -> files <> [] ->
  (fst (V301.findImageFilesRecursive dir tree w) = Return files ->
   disk (snd (V301.indexImages provider dir tree (Some n) w))
   = Some (Json (embedded provider (firstn (Z.to_nat n) files))))
  /\ (fst (V340.findImageFilesRecursive dir tree w) = Return files ->
      disk (snd (V340.indexImages provider dir tree (Some n) w))
      = match handler_failure provider (firstn (Z.to_nat n) files) with
        | Some _ => disk w
        | None => Some (Json (embedded provider (firstn (Z.to_nat n) files)))
        end)
  /\ (List.length (embedded provider (firstn (Z.to_nat n) files))
      <= Z.to_nat n)%nat.
Proof.
intros Hn Hne.
assert (A : attempted (Some n) 0 files = firstn (Z.to_nat n) files).
{ rewrite (attempted_capped n files Hn 0%Z) by lia. now rewrite Z.sub_0_r. }
repeat split.
- intros E.
  destruct (index_301_nonempty provider dir tree (Some n) w files E Hne)
    as (events & -> & _). cbn [snd disk]. now rewrite A.
- intros E.
  destruct (index_340_nonempty provider dir tree (Some n) w files E Hne)
    as (events & -> & _). cbn [snd disk]. now rewrite A.
- rewrite embedded_length.
  etransitivity; [apply filter_length_le|]. rewrite length_firstn. lia.
Qed.

Lemma index_positive_limit_witness :
  disk (snd (V301.indexImages example_provider "photos" readable_tree (Some 1%Z)
               old_snapshot))
  = Some (Json [ {| filePath := "photos/cat.PNG"; embedding := [1; 0]%float |} ])
  /\ disk (snd (V340.indexImages example_provider "photos" readable_tree (Some 1%Z)
                  old_snapshot))
     = Some (Json [ {| filePath := "photos/cat.PNG"; embedding := [1; 0]%float |} ])
  /\ disk (snd (V340.indexImages silent_provider "photos" readable_tree (Some 2%Z)
                  old_snapshot))
     = Some (Json plain_store).
Proof.
destruct (index_positive_limit example_provider "photos" readable_tree 1
            old_snapshot ["photos/cat.PNG"; "photos/broken.jpg"]%string)
  as (H1 & H2 & _); [lia|discriminate|].
destruct (index_positive_limit silent_provider "photos" readable_tree 2
            old_snapshot ["photos/cat.PNG"; "photos/broken.jpg"]%string)
  as (_ & H3 & _); [lia|discriminate|].
split; [rewrite H1 by reflexivity; reflexivity|].
split; [rewrite H2 by reflexivity; reflexivity|].
rewrite H3 by reflexivity. reflexivity.
Defined.

Lemma processFiles_zero_301 (provider : Provider) (total : nat)
  (files : list string) :
  forall (count : Z) (db : list DbEntry) (w : world),
    V301.processFiles provider (Some 0%Z) total files count db w
    = V301.processFiles provider None total files count db w.
Proof.
induction files as [|f rest IH]; intros count db w; [reflexivity|].
cbn [V301.processFiles limit_reached Z.eqb negb andb].
unfold bind, console_log, console_warn, emit.
destruct (embedImage provider f); apply IH.
Qed.

Lemma processFiles_zero_340 (provider : Provider) (total : nat)
  (files : list string) :
  forall (count : Z) (db : list DbEntry) (w : world),
    V340.processFiles provider (Some 0%Z) total files count db w
    = V340.processFiles provider None total files count db w.
Proof.
induction files as [|f rest IH]; intros count db w; [reflexivity|].
cbn [V340.processFiles limit_reached Z.eqb negb andb].
unfold bind, console_log, emit, lift.
destruct (embedImage provider f) as [v|e]; [apply IH|].
destruct (message_of e); [apply IH|reflexivity].
Qed.

(** X7. A limit of [0] is no limit: the run is, event for event and
    record for record, the run without a limit, in both versions. *)
Theorem index_limit_zero_is_no_limit (provider : Provider) (dir : string)
  (tree : readdir_result) (w : world) :
  V301.indexImages provider dir tree (Some 0%Z) w
  = V301.indexImages provider dir tree None w
  /\ V340.indexImages provider dir tree (Some 0%Z) w
     = V340.indexImages provider dir tree None w.
Proof.
split.
- unfold V301.indexImages. cbn [truthy Z.eqb negb].
  unfold bind, try_catch, console_log, emit, ret.
  destruct (V301.findImageFilesRecursive dir tree _) as [[files|e] w1];
    [|reflexivity].
  destruct (List.length files =? 0)%nat; [reflexivity|].
  now rewrite processFiles_zero_301.
- unfold V340.indexImages. cbn [truthy Z.eqb negb].
  unfold bind, try_catch, console_log, emit, ret.
  destruct (V340.findImageFilesRecursive dir tree _) as [[files|e] w1];
    [|reflexivity].
  destruct (List.length files =? 0)%nat; [reflexivity|].
  now rewrite processFiles_zero_340.
Qed.

(** X8. With a negative limit, a run that finds images embeds none of
    them and still writes the store: the snapshot becomes the empty list,
    whatever it held before, in both versions. *)
Theorem index_negative_limit_empties_store (provider : Provider) (dir : string)
  (tree : readdir_result) (n : Z) (w : world) (files : list string) :
  (n < 0)%Z -> files <> [] ->
  (fst (V301.findImageFilesRecursive dir tree w) = Return files ->
   disk (snd (V301.indexImages provider dir tree (Some n) w)) = Some (Json []))
  /\ (fst (V340.findImageFilesRecursive dir tree w) = Return files ->
      disk (snd (V340.indexImages provider dir tree (Some n) w)) = Some (Json [])).
Proof.
intros Hn Hne. split; intros E.
- destruct (index_301_nonempty provider dir tree (Some n) w files E Hne)
    as (events & -> & _). cbn [snd disk].
  now rewrite (attempted_negative n files Hn).
- destruct (index_340_nonempty provider dir tree (Some n) w files E Hne)
    as (events & -> & _). cbn [snd disk].
  now rewrite (attempted_negative n files Hn).
Qed.

Lemma index_negative_limit_empties_store_witness :
  V340.main example_provider readable_tree ["index"; "photos"; "-1"]%string
    old_snapshot
  = (Return tt,
     {| disk := Some (Json []);
        output := [ Console LOG Banner;
                    Console LOG StartingIndexing;
                    Console LOG (ProcessingLimitSet (-1));
                    Console LOG (FoundTotalImages 2);
                    Console LOG (ReachedLimit (-1));
                    Console LOG (IndexingComplete 0) ] |})
  /\ disk old_snapshot = Some (Json plain_store)
  /\ disk (snd (V301.indexImages example_provider "photos" readable_tree
                  (Some (-1)%Z) old_snapshot))
     = Some (Json []).
Proof.
destruct (index_negative_limit_empties_store example_provider "photos"
            readable_tree (-1) old_snapshot
            ["photos/cat.PNG"; "photos/broken.jpg"]%string)
  as (H1 & H2); [lia|discriminate|].
split; [reflexivity|]. split; [reflexivity|].
apply H1. reflexivity.
Defined.

(** X9. In v3.4.0, when some directory of the tree cannot be read, at
    whatever depth, the run prints its opening lines and the two error
    lines, returns, and leaves the snapshot as it was: whatever the limit,
    whatever images the tree holds, and without asking the provider. *)
Theorem index_aborts_on_unreadable (provider : Provider) (dir : string)
  (tree : readdir_result) (limit : option Z) (w : world) :
  all_readable tree = false ->
  exists message : string,
    V340.indexImages provider dir tree limit w
    = (Return tt,
       {| disk := disk w;
          output := output w ++ preamble limit
                    ++ [Console ERROR (ErrorDuringIndexing message);
                        Console ERROR (EnsureDirectoryExists dir)] |}).
Proof.
intros R. pose proof (findImageFilesRecursive_readable tree dir w) as H.
rewrite R in H. destruct H as (message & E). exists message.
apply (index_340_failed provider dir tree limit w message).
now rewrite E.
Qed.

Lemma index_aborts_on_unreadable_witness :
  exists message : string,
    V340.indexImages silent_provider "photos" example_tree (Some 1%Z) old_snapshot
    = (Return tt,
       {| disk := Some (Json plain_store);
          output := [ Console LOG StartingIndexing;
                      Console LOG (ProcessingLimitSet 1);
                      Console ERROR (ErrorDuringIndexing message);
                      Console ERROR (EnsureDirectoryExists "photos") ] |}).
Proof.
apply (index_aborts_on_unreadable silent_provider "photos" example_tree
         (Some 1%Z) old_snapshot).
reflexivity.
Defined.

(** X10. On a tree that can be read throughout, the two versions leave
    the same snapshot behind, whatever the limit and the earlier
    snapshot, with one exception: when the provider rejects one of the
    attempted files with [null] or [undefined], v3.4.0 leaves the
    snapshot as it was. *)
Theorem index_versions_write_same_store (provider : Provider) (dir : string)
  (tree : readdir_result) (limit : option Z) (w : world) (files : list string) :
  all_readable tree = true ->
  fst (V301.findImageFilesRecursive dir tree w) = Return files ->
  disk (snd (V340.indexImages provider dir tree limit w))
  = match handler_failure provider (attempted limit 0 files) with
    | Some _ => disk w
    | None => disk (snd (V301.indexImages provider dir tree limit w))
    end.
Proof.
intros R E1. pose proof (findImageFilesRecursive_readable tree dir w) as H.
rewrite R in H. destruct H as (Eq & files' & E).
assert (E2 : fst (V340.findImageFilesRecursive dir tree w) = Return files)
  by now rewrite Eq.
destruct files as [|f rest].
- destruct (index_301_empty provider dir tree limit w E1) as (ev1 & -> & _).
  destruct (index_340_empty provider dir tree limit w E2) as (ev2 & -> & _).
  reflexivity.
- destruct (index_301_nonempty provider dir tree limit w (f :: rest) E1)
    as (ev1 & -> & _); [discriminate|].
  destruct (index_340_nonempty provider dir tree limit w (f :: rest) E2)
    as (ev2 & -> & _); [discriminate|].
  cbn [snd disk].
  now destruct (handler_failure provider (attempted limit 0 (f :: rest))).
Qed.

Lemma index_versions_write_same_store_witness :
  disk (snd (V340.indexImages example_provider "photos" readable_tree None
               no_snapshot))
  = disk (snd (V301.indexImages example_provider "photos" readable_tree None
                 no_snapshot))
  /\ disk (snd (V340.indexImages silent_provider "photos" readable_tree None
                  no_snapshot))
     = None.
Proof.
split.
- apply (index_versions_write_same_store example_provider "photos" readable_tree
           None no_snapshot ["photos/cat.PNG"; "photos/broken.jpg"]%string);
    reflexivity.
- apply (index_versions_write_same_store silent_provider "photos" readable_tree
           None no_snapshot ["photos/cat.PNG"; "photos/broken.jpg"]%string);
    reflexivity.
Defined.

(** X24. Indexing twice is indexing once: a second run over the same
    tree with the same provider and limit leaves the snapshot the first
    run left, in both versions and whatever the first run did (wrote a
    store, found nothing, or failed). *)
Theorem index_twice_same_store (provider : Provider) (dir : string)
  (tree : readdir_result) (limit : option Z) (w : world) :
  disk (snd (V301.indexImages provider dir tree limit
               (snd (V301.indexImages provider dir tree limit w))))
  = disk (snd (V301.indexImages provider dir tree limit w))
  /\ disk (snd (V340.indexImages provider dir tree limit
                  (snd (V340.indexImages provider dir tree limit w))))
     = disk (snd (V340.indexImages provider dir tree limit w)).
Proof.
split.
- destruct (findImageFilesRecursive_quiet tree dir) as (files & evs & _ & E).
  assert (F : forall w0, fst (V301.findImageFilesRecursive dir tree w0) = Return files)
    by (intros w0; now rewrite E).
  set (w1 := snd (V301.indexImages provider dir tree limit w)).
  destruct files as [|f rest].
  + destruct (index_301_empty provider dir tree limit w1 (F w1)) as (ev & -> & _).
    reflexivity.
  + destruct (index_301_nonempty provider dir tree limit w1 (f :: rest) (F w1))
      as (ev1 & -> & _); [discriminate|].
    subst w1.
    destruct (index_301_nonempty provider dir tree limit w (f :: rest) (F w))
      as (ev2 & -> & _); [discriminate|].
    reflexivity.
- pose proof (find_340 dir tree w _ eq_refl) as F.
  set (w1 := snd (V340.indexImages provider dir tree limit w)).
  destruct (fst (V340.findImageFilesRecursive dir tree w)) as [[|f rest]|e].
  + destruct (index_340_empty provider dir tree limit w1) as (ev & -> & _);
      [now rewrite F|]. reflexivity.
  + destruct (index_340_nonempty provider dir tree limit w1 (f :: rest))
      as (ev1 & -> & _); [now rewrite F|discriminate|].
    subst w1.
    destruct (index_340_nonempty provider dir tree limit w (f :: rest))
      as (ev2 & -> & _); [now rewrite F|discriminate|].
    cbn [snd disk].
    now destruct (handler_failure provider (attempted limit 0 (f :: rest))).
  + destruct (find_340_throws tree dir w1 e) as (message & ->);
      [now rewrite F|].
    rewrite (index_340_failed provider dir tree limit w1 message) by now rewrite F.
    reflexivity.
Qed.

End CapFacts.

(** ** Searching: what a run opens, what it leaves alone, how it fails *)
Module OpenFacts.
Import RunFacts SearchFacts IndexFacts.

Lemma opened_app (xs ys : list event) : opened (xs ++ ys) = opened xs ++ opened ys.
Proof. unfold opened. apply flat_map_app. Qed.

Lemma showMatches_run (matches : list Match) :
  forall (index : nat) (w : world),
  exists events : list event,
    V340.showMatches index matches w
    = (Return tt, {| disk := disk w; output := output w ++ events |})
    /\ opened events = map (fun m => filePath (entry m)) matches
    /\ Forall quiet events.
Proof.
induction matches as [|m rest IH]; intros index w.
- exists []. cbn. rewrite world_eta. repeat split. constructor.
- cbn [V340.showMatches]. unfold console_log, openFile. rewrite !bind_emit.
  match goal with
  | |- context [V340.showMatches _ _ ?w'] =>
      destruct (IH (S index) w') as (events & -> & O & Q)
  end.
  cbn [disk output]. eexists (_ :: _ :: _ :: _ :: events).
  split; [rewrite <- !app_assoc; reflexivity|].
  split; [cbn; now rewrite <- O|repeat constructor; exact Q].
Qed.

Lemma topMatches_nil (q : list float) (topN : Z) : V340.topMatches q [] topN = [].
Proof. unfold V340.topMatches. cbn. apply slice_nil. Qed.

(** Every run of the v3.4.0 [search] only appends events; what it opens
    are the files of [topMatches]. *)
Lemma search_340_run (provider : Provider) (query : string) (topN : Z) (w : world) :
  exists (r : outcome unit) (events : list event),
    V340.search provider query topN w
    = (r, {| disk := disk w; output := output w ++ events |})
    /\ opened events
       = match disk w, embedText provider query with
         | Some (Json db), Return q =>
             map (fun m => filePath (entry m)) (V340.topMatches q db topN)
         | _, _ => []
         end.
Proof.
unfold V340.search, console_log. rewrite bind_emit.
destruct w as [d out]. cbn [disk output]. destruct d as [[db|text]|].
- erewrite bind_eq by (apply loadDatabase_loaded; reflexivity).
  destruct db as [|e db']; cbn [List.length Nat.eqb].
  + unfold console_error, emit. cbn [disk output].
    eexists _, [_; _]. split; [rewrite <- app_assoc; reflexivity|].
    cbn. destruct (embedText provider query); [|reflexivity].
    now rewrite topMatches_nil.
  + destruct (embedText provider query) as [q|err] eqn:Q.
    * erewrite bind_eq by (unfold lift; reflexivity). cbv zeta.
      destruct (V340.topMatches q (e :: db') topN) as [|m ms] eqn:T;
        cbn [List.length Nat.ltb Nat.leb]; rewrite bind_emit; cbn [disk output].
      -- destruct (V340.allMatches q (e :: db')) as [|best rest].
         ++ unfold ret. eexists _, [_; _]. split; [rewrite <- app_assoc; reflexivity|].
            reflexivity.
         ++ unfold console_log, emit. cbn [disk output].
            eexists _, [_; _; _]. split; [rewrite <- !app_assoc; reflexivity|].
            reflexivity.
      -- match goal with
         | |- context [V340.showMatches _ _ ?w'] =>
             destruct (showMatches_run (m :: ms) 0 w') as (events & -> & O & _)
         end.
         cbn [disk output]. eexists _, (_ :: _ :: events).
         split; [rewrite <- !app_assoc; reflexivity|]. exact O.
    * unfold bind, lift. eexists _, [_]. split; reflexivity.
- erewrite bind_eq by (apply loadDatabase_failed; right; now exists text).
  unfold ret. cbn [disk output]. eexists _, [_; _; _].
  split; [rewrite <- app_assoc; reflexivity|reflexivity].
- erewrite bind_eq by (apply loadDatabase_failed; now left).
  unfold ret. cbn [disk output]. eexists _, [_; _; _].
  split; [rewrite <- app_assoc; reflexivity|reflexivity].
Qed.

(** Every run of the v3.0.1 [search] only appends console lines. *)
Lemma search_301_run (provider : Provider) (query : string) (w : world) :
  exists (r : outcome unit) (events : list event),
    V301.search provider query w
    = (r, {| disk := disk w; output := output w ++ events |})
    /\ opened events = [].
Proof.
unfold V301.search, console_log. rewrite bind_emit.
destruct w as [d out]. cbn [disk output]. destruct d as [[db|text]|].
- erewrite bind_eq by (apply loadDatabase_loaded; reflexivity).
  destruct db as [|e db']; cbn [List.length Nat.eqb].
  + unfold console_error, emit. cbn [disk output].
    eexists _, [_; _]. split; [rewrite <- app_assoc; reflexivity|reflexivity].
  + destruct (embedText provider query) as [q|err] eqn:Q.
    * erewrite bind_eq by (unfold lift; reflexivity).
      destruct (V301.bestMatch q (e :: db')) as [[best|] s].
      -- rewrite !bind_emit. unfold emit. cbn [disk output].
         eexists _, [_; _; _; _]. split; [rewrite <- !app_assoc; reflexivity|].
         reflexivity.
      -- unfold emit. cbn [disk output]. eexists _, [_; _].
         split; [rewrite <- !app_assoc; reflexivity|reflexivity].
    * unfold bind, lift. eexists _, [_]. split; reflexivity.
- erewrite bind_eq by (apply loadDatabase_failed; right; now exists text).
  unfold ret. cbn [disk output]. eexists _, [_; _; _].
  split; [rewrite <- app_assoc; reflexivity|reflexivity].
- erewrite bind_eq by (apply loadDatabase_failed; now left).
  unfold ret. cbn [disk output]. eexists _, [_; _; _].
  split; [rewrite <- app_assoc; reflexivity|reflexivity].
Qed.

(** X11. A search of v3.4.0 opens exactly the files of [topMatches], in
    rank order, and nothing else: nothing at all when the store cannot be
    loaded, when the provider fails on the query, or when no record
    reaches the threshold.  A search of v3.0.1 never opens a file. *)
Theorem search_opens_top_matches (provider : Provider) (query : string)
  (topN : Z) (w : world) :
  opened (output (snd (V340.search provider query topN w)))
  = opened (output w)
    ++ match disk w, embedText provider query with
       | Some (Json db), Return q =>
           map (fun m => filePath (entry m)) (V340.topMatches q db topN)
       | _, _ => []
       end
  /\ opened (output (snd (V301.search provider query w))) = opened (output w).
Proof.
split.
- destruct (search_340_run provider query topN w) as (r & events & -> & O).
  cbn [snd output]. now rewrite opened_app, O.
- destruct (search_301_run provider query w) as (r & events & -> & O).
  cbn [snd output]. now rewrite opened_app, O, app_nil_r.
Qed.

(** X12. Searching never touches the snapshot file: after a search, in
    either version and however it ends, the file is what it was, and what
    had been printed before is still there, followed by the new lines. *)
Theorem search_leaves_store_alone (provider : Provider) (query : string)
  (topN : Z) (w : world) :
  (disk (snd (V340.search provider query topN w)) = disk w
   /\ exists events,
        output (snd (V340.search provider query topN w)) = output w ++ events)
  /\ (disk (snd (V301.search provider query w)) = disk w
      /\ exists events,
           output (snd (V301.search provider query w)) = output w ++ events).
Proof.
split.
- destruct (search_340_run provider query topN w) as (r & events & -> & _).
  split; [reflexivity|now exists events].
- destruct (search_301_run provider query w) as (r & events & -> & _).
  split; [reflexivity|now exists events].
Qed.

(** X13. A failure of the provider on the query is not caught: with a
    store that holds records, the search throws the provider's error
    right after its heading, in both versions, and shows no result. *)
Theorem search_provider_failure (provider : Provider) (query : string)
  (topN : Z) (w : world) (db : list DbEntry) (e : exn) :
  disk w = Some (Json db) -> db <> [] ->
  embedText provider query = Throw e ->
  V340.search provider query topN w
  = (Throw e,
     {| disk := disk w;
        output := output w ++ [Console LOG (Searching query (Some topN))] |})
  /\ V301.search provider query w
     = (Throw e,
        {| disk := disk w;
           output := output w ++ [Console LOG (Searching query None)] |}).
Proof.
intros D Hdb Q.
split; unfold V340.search, V301.search, console_log; rewrite bind_emit;
  (erewrite bind_eq by (apply loadDatabase_loaded; exact D));
  (destruct db as [|e0 db']; [congruence|]); cbn [List.length Nat.eqb];
  unfold bind, lift; rewrite Q; reflexivity.
Qed.

Lemma search_provider_failure_witness :
  V340.search {| embedImage := fun _ => Return [1; 0]%float;
                 embedText := fun _ => Throw (Error "model not loaded") |}
    "cat" 4 old_snapshot
  = (Throw (Error "model not loaded"),
     {| disk := Some (Json plain_store);
        output := [Console LOG (Searching "cat" (Some 4%Z))] |}).
Proof.
apply (search_provider_failure
         {| embedImage := fun _ => Return [1; 0]%float;
            embedText := fun _ => Throw (Error "model not loaded") |}
         "cat" 4 old_snapshot plain_store (Error "model not loaded")).
- reflexivity.
- discriminate.
- reflexivity.
Defined.

(** X14. On a store without records the search reports the empty
    database with [console.error] and returns, in both versions; the
    provider is not asked for the query's vector, so its failing changes
    nothing. *)
Theorem search_empty_store (provider : Provider) (query : string) (topN : Z)
  (w : world) :
  disk w = Some (Json []) ->
  V340.search provider query topN w
  = (Return tt,
     {| disk := disk w;
        output := output w ++ [Console LOG (Searching query (Some topN));
                               Console ERROR DatabaseEmpty] |})
  /\ V301.search provider query w
     = (Return tt,
        {| disk := disk w;
           output := output w ++ [Console LOG (Searching query None);
                                  Console ERROR DatabaseEmpty] |}).
Proof.
intros D.
split; unfold V340.search, V301.search, console_log; rewrite bind_emit;
  (erewrite bind_eq by (apply loadDatabase_loaded; exact D));
  cbn [List.length Nat.eqb]; unfold console_error, emit; cbn [disk output];
  rewrite <- app_assoc; reflexivity.
Qed.

Lemma search_empty_store_witness :
  V340.search {| embedImage := fun _ => Return [1; 0]%float;
                 embedText := fun _ => Throw (Error "model not loaded") |}
    "cat" 4 {| disk := Some (Json []); output := [] |}
  = (Return tt,
     {| disk := Some (Json []);
        output := [Console LOG (Searching "cat" (Some 4%Z));
                   Console ERROR DatabaseEmpty] |}).
Proof.
apply (search_empty_store
         {| embedImage := fun _ => Return [1; 0]%float;
            embedText := fun _ => Throw (Error "model not loaded") |}
         "cat" 4 {| disk := Some (Json []); output := [] |}).
reflexivity.
Defined.

End OpenFacts.

(** ** The best match of v3.0.1, and the ranking of v3.4.0 *)
Module BestFacts.
Import JsArray Binary64 RankingFacts SearchFacts.
Local Open Scope float_scope.

Lemma hd_insert {A : Type} (comparefn : A -> A -> float) (x : A) (sorted : list A) :
  hd_error (insert comparefn x sorted)
  = match hd_error sorted with
    | None => Some x
    | Some y => if after comparefn x y then Some y else Some x
    end.
Proof.
destruct sorted as [|y rest]; cbn [insert hd_error]; [reflexivity|].
now destruct (after comparefn x y).
Qed.

Lemma after_ltb (x y : Match) :
  score_numeric x -> score_numeric y ->
  after V340.compareMatches x y = (similarity x <? similarity y).
Proof. intros Hx Hy. unfold after, V340.compareMatches. now apply Num.sub_pos_ltb. Qed.

Lemma hd_numeric (q : list float) (db : list DbEntry) (m : Match) :
  numeric_scores q db -> hd_error (V340.allMatches q db) = Some m ->
  score_numeric m.
Proof.
intros Hn H. pose proof (allMatches_perm q db) as P.
assert (F : Forall score_numeric (V340.allMatches q db)).
{ eapply Permutation_Forall; [symmetry; exact P|now apply scored_numeric]. }
destruct (V340.allMatches q db) as [|m0 rest]; [discriminate H|].
injection H as <-. now inversion F.
Qed.

(** The loop of [bestMatch], from any accumulator whose similarity is a
    number: it ends with the first-ranked record when that one beats the
    accumulator, and with the accumulator otherwise. *)
Lemma fold_best (q : list float) (db : list DbEntry) :
  numeric_scores q db ->
  forall (o : option DbEntry) (s : float),
    numeric s ->
    fold_left
      (fun (acc : option DbEntry * float) entry =>
         let similarity := cosineSimilarity q (embedding entry) in
         if snd acc <? similarity then (Some entry, similarity) else acc)
      db (o, s)
    = match hd_error (V340.allMatches q db) with
      | None => (o, s)
      | Some p => if s <? similarity p then (Some (entry p), similarity p)
                  else (o, s)
      end.
Proof.
induction db as [|e l IH]; intros Hn o s Hs; [reflexivity|].
assert (He : numeric (cosineSimilarity q (embedding e))) by now inversion Hn.
assert (Hl : numeric_scores q l) by now inversion Hn.
cbn [fold_left snd]. cbv zeta.
change (V340.allMatches q (e :: l))
  with (insert V340.compareMatches (V340.score q e) (V340.allMatches q l)).
rewrite hd_insert.
pose proof (hd_numeric q l) as Hy.
destruct (s <? cosineSimilarity q (embedding e)) eqn:Lt.
- rewrite (IH Hl _ _ He).
  destruct (hd_error (V340.allMatches q l)) as [y|]; cbn [V340.score entry similarity].
  + specialize (Hy y Hl eq_refl).
    rewrite (after_ltb (V340.score q e) y He Hy). cbn [V340.score similarity].
    destruct (cosineSimilarity q (embedding e) <? similarity y) eqn:Lt2.
    * replace (s <? similarity y) with true; [reflexivity|].
      rewrite Num.ltb_ord in * by assumption. lia.
    * cbn [V340.score entry similarity]. now rewrite Lt.
  + now rewrite Lt.
- rewrite (IH Hl _ _ Hs).
  destruct (hd_error (V340.allMatches q l)) as [y|]; cbn [V340.score entry similarity].
  + specialize (Hy y Hl eq_refl).
    rewrite (after_ltb (V340.score q e) y He Hy). cbn [V340.score similarity].
    destruct (cosineSimilarity q (embedding e) <? similarity y) eqn:Lt2;
      [reflexivity|].
    cbn [V340.score entry similarity]. rewrite Lt.
    replace (s <? similarity y) with false; [reflexivity|].
    rewrite Num.ltb_ord in * by assumption. lia.
  + now rewrite Lt.
Qed.

(** X15. When all similarities are numbers, the best match of v3.0.1 is
    the record v3.4.0 ranks first, with the same score; v3.0.1 finds no
    match only when the store is empty or that score is minus infinity. *)
Theorem bestMatch_is_first_ranked (q : list float) (db : list DbEntry) :
  numeric_scores q db ->
  V301.bestMatch q db
  = match V340.allMatches q db with
    | m :: _ =>
        if neg_infinity <? similarity m then (Some (entry m), similarity m)
        else (None, neg_infinity)
    | [] => (None, neg_infinity)
    end.
Proof.
intros Hn. unfold V301.bestMatch.
pose proof (fold_best q db Hn None neg_infinity eq_refl) as F.
cbv zeta in F. rewrite F.
now destruct (V340.allMatches q db).
Qed.

Lemma bestMatch_is_first_ranked_witness :
  V301.bestMatch example_query plain_store
  = (Some {| filePath := "c.png"; embedding := [1; 0] |}, 1)
  /\ map (fun m => filePath (entry m)) (V340.allMatches example_query plain_store)
     = ["c.png"; "a.png"]%string.
Proof.
split; [|reflexivity].
rewrite (bestMatch_is_first_ranked example_query plain_store plain_store_numeric).
reflexivity.
Defined.

(** X16. When all similarities are numbers, the best match v3.0.1 shows
    is a record of the store, the score shown is its similarity to the
    query, and no record of the store scores higher. *)
Theorem bestMatch_scores_highest (q : list float) (db : list DbEntry)
  (best : DbEntry) (s : float) :
  numeric_scores q db ->
  V301.bestMatch q db = (Some best, s) ->
  In best db
  /\ s = cosineSimilarity q (embedding best)
  /\ Forall (fun e => (cosineSimilarity q (embedding e) <=? s) = true) db.
Proof.
intros Hn H. unfold V301.bestMatch in H.
pose proof (fold_best q db Hn None neg_infinity eq_refl) as F.
cbv zeta in F. rewrite F in H. clear F.
pose proof (allMatches_perm q db) as P.
pose proof (allMatches_descending q db Hn) as D.
pose proof (hd_numeric q db) as N.
destruct (V340.allMatches q db) as [|m rest]; [discriminate H|].
cbn [hd_error] in H, N. specialize (N m Hn eq_refl).
destruct (neg_infinity <? similarity m); [|discriminate H].
injection H as <- <-.
assert (I : In m (map (V340.score q) db)).
{ eapply Permutation_in; [exact P|now left]. }
apply in_map_iff in I. destruct I as (e & <- & He).
cbn [V340.score entry similarity]. repeat split; [exact He|].
destruct (head_highest _ rest N D) as (_ & Hall).
assert (Hall' : Forall (fun m => (similarity m <=? similarity (V340.score q e)) = true)
                  (map (V340.score q) db)).
{ eapply Permutation_Forall; [exact P|exact Hall]. }
rewrite Forall_map in Hall'. exact Hall'.
Qed.

Lemma bestMatch_scores_highest_witness :
  In {| filePath := "c.png"; embedding := [1; 0] |} plain_store
  /\ Forall (fun e => (cosineSimilarity example_query (embedding e) <=? 1) = true)
       plain_store.
Proof.
destruct (bestMatch_scores_highest example_query plain_store
            {| filePath := "c.png"; embedding := [1; 0] |} 1
            plain_store_numeric eq_refl) as (H1 & _ & H3).
split; [exact H1|exact H3].
Defined.

Lemma fold_keeps_match (q : list float) (db : list DbEntry) :
  forall (b : DbEntry) (s : float),
    fst (fold_left
           (fun (acc : option DbEntry * float) entry =>
              if snd acc <? cosineSimilarity q (embedding entry)
              then (Some entry, cosineSimilarity q (embedding entry)) else acc)
           db (Some b, s)) <> None.
Proof.
induction db as [|e l IH]; intros b s; cbn [fold_left snd]; [discriminate|].
destruct (s <? cosineSimilarity q (embedding e)); apply IH.
Qed.

(** X17. The search of v3.0.1 finds no match exactly when no record has
    a similarity above minus infinity, as when every similarity is NaN:
    the loop starts from minus infinity and a comparison with NaN is
    false. *)
Theorem bestMatch_none_iff (q : list float) (db : list DbEntry) :
  fst (V301.bestMatch q db) = None
  <-> Forall (fun e => (neg_infinity <? cosineSimilarity q (embedding e)) = false) db.
Proof.
unfold V301.bestMatch. cbv zeta.
induction db as [|e l IH]; cbn [fold_left snd].
- split; [constructor|reflexivity].
- destruct (neg_infinity <? cosineSimilarity q (embedding e)) eqn:Lt.
  + split.
    * intros H. now apply fold_keeps_match in H.
    * intros H. inversion H; subst. congruence.
  + rewrite IH. split.
    * intros H. now constructor.
    * intros H. now inversion H.
Qed.

End BestFacts.

(** ** The command line of v3.4.0 *)
Module MainFacts.
Import RunFacts.
Local Open Scope string_scope.

Lemma given_nonempty (s : string) : s <> "" -> V340.given (Some s) = true.
Proof. destruct s; [contradiction|reflexivity]. Qed.

(** X18. [search w1 ... wk n], with at least one word before a last
    argument that [parseInt] reads as the number [n], searches for the
    words [w1 ... wk] joined by blanks and asks for the top [n]: the last
    argument is not part of the query. *)
Theorem main_search_with_count (provider : Provider) (tree : readdir_result)
  (first : string) (rest : list string) (lastArg : string) (n : Z) (w : world) :
  first <> "" ->
  Number.parseInt lastArg = Some n ->
  V340.main provider tree ("search" :: first :: (rest ++ [lastArg])%list) w
  = bind (console_log Banner)
      (fun _ => V340.search provider (String.concat " " (first :: rest)) n) w.
Proof.
intros Hf Hn. unfold V340.main.
cbn [nth_error String.eqb Ascii.eqb Bool.eqb andb skipn].
rewrite (given_nonempty first Hf). cbn [andb].
change ("search" :: first :: (rest ++ [lastArg])%list)
  with (("search" :: first :: rest) ++ [lastArg])%list.
rewrite last_last, Hn.
change (first :: (rest ++ [lastArg])%list) with ((first :: rest) ++ [lastArg])%list.
rewrite removelast_last, length_app. cbn [List.length].
replace (1 <? S (List.length rest) + 1)%nat with true
  by (symmetry; apply Nat.ltb_lt; lia).
reflexivity.
Qed.

Lemma main_search_with_count_witness :
  V340.main example_provider example_tree ["search"; "black"; "cat"; "2"] old_snapshot
  = bind (console_log Banner)
      (fun _ => V340.search example_provider "black cat" 2) old_snapshot.
Proof.
apply (main_search_with_count example_provider example_tree "black" ["cat"] "2" 2).
- discriminate.
- reflexivity.
Defined.

(** X19. [search w1 ... wk] searches for all the words joined by blanks
    and asks for the top 4 when the last word is not a number, and also
    when there is one word only, number or not. *)
Theorem main_search_default_count (provider : Provider) (tree : readdir_result)
  (first : string) (rest : list string) (w : world) :
  first <> "" ->
  rest = [] \/ Number.parseInt (last (first :: rest) "") = None ->
  V340.main provider tree ("search" :: first :: rest) w
  = bind (console_log Banner)
      (fun _ => V340.search provider (String.concat " " (first :: rest)) 4) w.
Proof.
intros Hf H. unfold V340.main.
cbn [nth_error String.eqb Ascii.eqb Bool.eqb andb skipn].
rewrite (given_nonempty first Hf). cbn [andb].
change (last ("search" :: first :: rest) "") with (last (first :: rest) "").
destruct H as [-> | ->]; [|reflexivity].
cbn [last List.length Nat.ltb Nat.leb].
now destruct (Number.parseInt first).
Qed.

Lemma main_search_default_count_witness :
  V340.main example_provider example_tree ["search"; "2024"] old_snapshot
  = bind (console_log Banner)
      (fun _ => V340.search example_provider "2024" 4) old_snapshot
  /\ V340.main example_provider example_tree ["search"; "black"; "cat"] old_snapshot
     = bind (console_log Banner)
         (fun _ => V340.search example_provider "black cat" 4) old_snapshot.
Proof.
split.
- apply (main_search_default_count example_provider example_tree "2024" []).
  + discriminate.
  + now left.
- apply (main_search_default_count example_provider example_tree "black" ["cat"]).
  + discriminate.
  + now right.
Defined.

(** X20. Any other command line, one whose first argument is neither
    [index] nor [search] or whose second argument is missing or empty,
    only gets the banner and the three usage lines: nothing is read,
    written, embedded or opened. *)
Theorem main_usage (provider : Provider) (tree : readdir_result)
  (args : list string) (w : world) :
  valid_command args = false ->
  V340.main provider tree args w
  = (Return tt,
     {| disk := disk w;
        output := (output w ++ [ Console LOG Banner;
                                Console LOG InvalidCommand;
                                Console LOG UsageIndex;
                                Console LOG UsageSearch ])%list |}).
Proof.
intros H.
assert (U : bind (console_log Banner)
              (fun _ => bind (console_log InvalidCommand)
                          (fun _ => bind (console_log UsageIndex)
                                      (fun _ => console_log UsageSearch))) w
            = (Return tt,
               {| disk := disk w;
                  output := (output w ++ [ Console LOG Banner;
                                          Console LOG InvalidCommand;
                                          Console LOG UsageIndex;
                                          Console LOG UsageSearch ])%list |})).
{ unfold console_log. rewrite !bind_emit. unfold emit. cbn [disk output].
  now rewrite <- !app_assoc. }
unfold V340.main.
destruct args as [|command [|[|c firstArg] rest]];
  cbn [nth_error V340.given andb]; rewrite ?andb_false_r; try exact U.
cbn [valid_command] in H. apply orb_false_elim in H. destruct H as [-> ->].
exact U.
Qed.

Lemma main_usage_witness :
  V340.main example_provider example_tree ["find"; "cat"] old_snapshot
  = (Return tt,
     {| disk := Some (Json plain_store);
        output := [ Console LOG Banner;
                    Console LOG InvalidCommand;
                    Console LOG UsageIndex;
                    Console LOG UsageSearch ] |})
  /\ V340.main example_provider example_tree ["index"] old_snapshot
     = V340.main example_provider example_tree ["find"; "cat"] old_snapshot.
Proof.
split.
- apply (main_usage example_provider example_tree ["find"; "cat"] old_snapshot).
  reflexivity.
- reflexivity.
Defined.

End MainFacts.

(** ** The model loader: loading once, and loading no more than needed *)
Module LoaderFacts.
Import CLIPSingleton.

Section WithHandles.
Context {handle : Type}.
Implicit Types (st : state handle) (c : component) (h : handle).

Lemma field_assign c h (s : statics handle) : field c (assign c h s) = Some h.
Proof. now destruct c. Qed.

Lemma field_assign_other c c' h (s : statics handle) :
  c' <> c -> field c' (assign c h s) = field c' s.
Proof. intros N. destruct c, c'; try reflexivity; now contradiction N. Qed.

Lemma andThen_returns {A B : Type} (m : L A) (k : A -> L B) st st' (b : B) :
  andThen m k st = (Return b, st') ->
  exists (a : A) (s1 : state handle),
    m st = (Return a, s1) /\ k a s1 = (Return b, st').
Proof.
unfold andThen. destruct (m st) as [[a|e] s1]; [|discriminate].
intros H. now exists a, s1.
Qed.

Lemma ensure_loaded (from_pretrained : component -> outcome handle) c st h :
  field c (fields st) = Some h -> ensure from_pretrained c st = (Return h, st).
Proof. intros H. unfold ensure. now rewrite H. Qed.

(** A check changes no field but its own, and that one only from [null]. *)
Lemma ensure_frame (from_pretrained : component -> outcome handle) c st :
  forall c', c' <> c \/ field c (fields st) <> None ->
    field c' (fields (snd (ensure from_pretrained c st))) = field c' (fields st).
Proof.
intros c' H. unfold ensure.
destruct (field c (fields st)) as [h|] eqn:F; [reflexivity|].
destruct H as [N|N]; [|now contradiction N].
destruct (from_pretrained c); cbn [snd fields]; [|reflexivity].
now apply field_assign_other.
Qed.

Lemma ensure_returns (from_pretrained : component -> outcome handle) c st st' h :
  ensure from_pretrained c st = (Return h, st') ->
  field c (fields st') = Some h
  /\ forall c' h', field c' (fields st) = Some h' -> field c' (fields st') = Some h'.
Proof.
unfold ensure. destruct (field c (fields st)) as [h0|] eqn:F.
- intros H. injection H as <- <-. now split.
- destruct (from_pretrained c) as [h0|e]; [|discriminate].
  intros H. injection H as <- <-. cbn [fields]. split; [apply field_assign|].
  intros c' h' E. rewrite field_assign_other; [exact E|]. congruence.
Qed.

(** X21. When [getInstance] of v3.0.1 returns, all four fields of the
    object it returns are loaded, what was loaded before is still the
    same instance, and a second call returns the same object without
    loading or printing anything, whatever the loaders would do then. *)
Theorem getInstance_loads_once
  (from_pretrained : component -> outcome handle) st st' (r : statics handle) :
  getInstance from_pretrained st = (Return r, st') ->
  (forall c, exists h, field c r = Some h)
  /\ fields st' = r
  /\ (forall c h, field c (fields st) = Some h -> field c r = Some h)
  /\ forall again : component -> outcome handle,
       getInstance again st' = (Return r, st').
Proof.
intros H. unfold getInstance in H.
apply andThen_returns in H. destruct H as (t & s1 & E1 & H).
apply andThen_returns in H. destruct H as (p & s2 & E2 & H).
apply andThen_returns in H. destruct H as (v & s3 & E3 & H).
apply andThen_returns in H. destruct H as (x & s4 & E4 & H).
injection H as <- <-.
apply ensure_returns in E1, E2, E3, E4.
destruct E1 as (T1 & K1), E2 as (T2 & K2), E3 as (T3 & K3), E4 as (T4 & K4).
assert (A : forall c, exists h, field c (fields s4) = Some h).
{ intros []; eauto. }
split; [exact A|]. split; [reflexivity|]. split; [now auto|].
intros again. unfold getInstance, andThen.
destruct (A Tokenizer) as (ht & Ht), (A Processor) as (hp & Hp),
  (A VisionModel) as (hv & Hv), (A TextModel) as (hx & Hx).
now rewrite (ensure_loaded again _ _ _ Ht), (ensure_loaded again _ _ _ Hp),
  (ensure_loaded again _ _ _ Hv), (ensure_loaded again _ _ _ Hx).
Qed.

Lemma andThen_frame {A B : Type} (m : L A) (k : A -> L B) st c :
  field c (fields (snd (m st))) = field c (fields st) ->
  (forall a s1, field c (fields (snd (k a s1))) = field c (fields s1)) ->
  field c (fields (snd (andThen m k st))) = field c (fields st).
Proof.
intros Hm Hk. unfold andThen. destruct (m st) as [[a|e] s1]; cbn [snd] in *.
- now rewrite Hk.
- exact Hm.
Qed.

(** X22. In v3.4.0 an indexing run loads the vision model and the image
    processor only, and a search the text model and the tokenizer only:
    the other two fields stay as they are, and what their loaders would
    do makes no difference. *)
Theorem getters_load_what_is_needed
  (from_pretrained : component -> outcome handle) st :
  (field Tokenizer (fields (snd (loadForIndexing from_pretrained st)))
   = field Tokenizer (fields st)
   /\ field TextModel (fields (snd (loadForIndexing from_pretrained st)))
      = field TextModel (fields st)
   /\ forall other : component -> outcome handle,
        other VisionModel = from_pretrained VisionModel ->
        other Processor = from_pretrained Processor ->
        loadForIndexing other st = loadForIndexing from_pretrained st)
  /\ (field Processor (fields (snd (loadForSearching from_pretrained st)))
      = field Processor (fields st)
      /\ field VisionModel (fields (snd (loadForSearching from_pretrained st)))
         = field VisionModel (fields st)
      /\ forall other : component -> outcome handle,
           other TextModel = from_pretrained TextModel ->
           other Tokenizer = from_pretrained Tokenizer ->
           loadForSearching other st = loadForSearching from_pretrained st).
Proof.
assert (F : forall c1 c2 c s0,
          c <> c1 -> c <> c2 ->
          field c (fields (snd (andThen (ensure from_pretrained c1)
                                  (fun a => andThen (ensure from_pretrained c2)
                                              (fun b s => (Return (a, b), s))) s0)))
          = field c (fields s0)).
{ intros c1 c2 c s0 N1 N2. apply andThen_frame.
  - apply ensure_frame. now left.
  - intros a s1. apply andThen_frame.
    + apply ensure_frame. now left.
    + reflexivity. }
repeat split; try (apply F; discriminate);
  intros other H1 H2;
  unfold loadForIndexing, loadForSearching, getVisionModel, getProcessor,
    getTextModel, getTokenizer, andThen, ensure;
  now rewrite H1, H2.
Qed.

(** X23. In v3.0.1 either command goes through [getInstance], which
    needs all four: when the text model is not loaded and fails to load,
    [getInstance] throws, where the loading an indexing run of v3.4.0
    does returns its two instances all the same. *)
Theorem getInstance_needs_text_model
  (from_pretrained : component -> outcome handle) st (e : exn) :
  field TextModel (fields st) = None ->
  from_pretrained TextModel = Throw e ->
  (forall c, c <> TextModel -> exists h, from_pretrained c = Return h) ->
  fst (getInstance from_pretrained st) = Throw e
  /\ exists v p, fst (loadForIndexing from_pretrained st) = Return (v, p).
Proof.
intros Hx He Hc.
destruct (Hc Tokenizer) as (ht & Ht); [discriminate|].
destruct (Hc Processor) as (hp & Hp); [discriminate|].
destruct (Hc VisionModel) as (hv & Hv); [discriminate|].
destruct st as [[t p v x] out]. cbn [field fields textModel] in Hx. subst x.
unfold getInstance, loadForIndexing, getVisionModel, getProcessor, andThen, ensure.
cbn [field fields assign tokenizer processor visionModel textModel].
rewrite Ht, Hp, Hv, He.
destruct t, p, v;
  cbn [field fields assign tokenizer processor visionModel textModel fst];
  rewrite ?He; cbn [fst]; (split; [reflexivity|]); eauto.
Qed.

End WithHandles.

Lemma getInstance_loads_once_witness :
  exists (r : statics string) (st' : state string),
    getInstance (fun _ => Return "clip"%string)
      {| fields := unloaded; console := [] |} = (Return r, st')
    /\ console st'
       = [ Loading Tokenizer; Loaded Tokenizer; Loading Processor; Loaded Processor;
           Loading VisionModel; Loaded VisionModel; Loading TextModel; Loaded TextModel ]
    /\ getInstance (fun _ => Throw (Error "offline")) st' = (Return r, st').
Proof.
eexists _, _. split; [reflexivity|]. split; [reflexivity|].
destruct (getInstance_loads_once (fun _ => Return "clip"%string)
            {| fields := unloaded; console := [] |} _ _ eq_refl)
  as (_ & _ & _ & H).
apply H.
Defined.

Lemma getInstance_needs_text_model_witness :
  fst (getInstance
         (fun c => match c with
                   | TextModel => Throw (Error "offline")
                   | _ => Return "clip"%string
                   end)
         {| fields := unloaded; console := [] |})
  = Throw (Error "offline")
  /\ exists v p : string,
       fst (loadForIndexing
              (fun c => match c with
                        | TextModel => Throw (Error "offline")
                        | _ => Return "clip"%string
                        end)
              {| fields := unloaded; console := [] |})
       = Return (v, p).
Proof.
apply (getInstance_needs_text_model
         (fun c => match c with
                   | TextModel => Throw (Error "offline")
                   | _ => Return "clip"%string
                   end)
         {| fields := unloaded; console := [] |} (Error "offline")).
- reflexivity.
- reflexivity.
- intros c N. destruct c; solve [now exists "clip"%string | now contradiction N].
Defined.

End LoaderFacts.
